(** * Round-boundary reconstruction of the Valorant round detection worker

    A shallow embedding of the algorithmic core of [worker/worker.py]:
    the gameplay-period detection at the end of
    [extract_keyframes_and_detect_rounds], [build_rounds_from_wins] and the
    result selection of [process_video].

    Modelling decisions.
    - A Python [float] timestamp is an exact rational of [Q].  Overflow,
      NaN and the rounding of [+] and [-] are outside the model; the
      timestamps the worker itself produces are [float(t)] for integers
      [t] of a [range], on which these operations are exact.
    - Code that may raise returns an [Outcome]: list indexing is the one
      operation of the core that can raise ([IndexError]).
    - External collaborators (yt-dlp, the OCR, the cache, the clock) are
      arguments of the functions that consult them. *)

From Stdlib Require Import String Ascii.
From Stdlib Require Import QArith Qround Qabs ZArith List Bool Lia Lqa Sorted.
Import ListNotations.

Local Open Scope Q_scope.

(** ** Python runtime fragments *)

Inductive PyError : Type :=
| IndexError.

Inductive Outcome (A : Type) : Type :=
| Returns (a : A)
| Raises (e : PyError).

Arguments Returns {A} a.
Arguments Raises {A} e.

Definition bind {A B : Type} (m : Outcome A) (k : A -> Outcome B) : Outcome B :=
  match m with
  | Returns a => k a
  | Raises e => Raises e
  end.

Notation "x <- m ;; k" := (bind m (fun x => k))
  (at level 61, m at next level, right associativity).

(** [l[k]] for a Python list: negative indices count from the end,
    anything out of range raises. *)
Definition py_index {A : Type} (l : list A) (k : Z) : Outcome A :=
  let n := Z.of_nat (length l) in
  let pos := (if k <? 0 then k + n else k)%Z in
  if ((0 <=? pos) && (pos <? n))%Z
  then match nth_error l (Z.to_nat pos) with
       | Some a => Returns a
       | None => Raises IndexError
       end
  else Raises IndexError.

(** [a < b] on floats. *)
Definition Qlt_bool (a b : Q) : bool := negb (Qle_bool b a).

(** [max(a, b)]: the first argument unless the second is strictly larger. *)
Definition py_max (a b : Q) : Q := if Qlt_bool a b then b else a.

(** Nearest integer, ties to the even one. *)
Definition round_half_even (q : Q) : Z :=
  let f := Qfloor q in
  match Qcompare (q - inject_Z f) (1 # 2) with
  | Lt => f
  | Gt => (f + 1)%Z
  | Eq => if Z.even f then f else (f + 1)%Z
  end.

(** [round(x, ndigits)] for [ndigits >= 0]: the nearest multiple of
    [10^-ndigits], ties to even, in lowest terms. *)
Definition py_round (x : Q) (ndigits : nat) : Q :=
  let scale := inject_Z (10 ^ Z.of_nat ndigits) in
  Qred (inject_Z (round_half_even (x * scale)) / scale).

(** [enumerate(l)] *)
Definition enumerate {A : Type} (l : list A) : list (Z * A) :=
  combine (map Z.of_nat (seq 0 (length l))) l.

(** ** Data model *)

Abbreviation Timestamp := Q (only parsing).

(** A gameplay period is the Python tuple [(start, end)]. *)
Abbreviation GameplayPeriod := (Q * Q)%type (only parsing).

(** The dict appended to [rounds] (keys 'round', 'start', 'end',
    'duration'). *)
Record Round : Type := mkRound {
  round : Z;
  start : Timestamp;
  end_ : Timestamp;
  duration : Timestamp
}.

(** ** Gameplay periods from the sampled timestamps
    (worker.py, lines 178-194; [segmentActivity] in the specification) *)

(** The [for timestamp in scene_changes[1:]] loop followed by the final
    append; the three loop-carried variables are arguments. *)
Fixpoint segment_loop (rest : list Timestamp)
    (current_start last_timestamp : Timestamp)
    (gameplay_periods : list GameplayPeriod) : list GameplayPeriod :=
  match rest with
  | [] => gameplay_periods ++ [(current_start, last_timestamp)]
  | timestamp :: rest' =>
      let gap := timestamp - last_timestamp in
      if Qlt_bool 180 gap
      then segment_loop rest' timestamp timestamp
             (gameplay_periods ++ [(current_start, last_timestamp)])
      else segment_loop rest' current_start timestamp gameplay_periods
  end.

Definition segmentActivity (scene_changes : list Timestamp)
  : Outcome (list GameplayPeriod) :=
  match scene_changes with
  | [] => Returns []
  | _ :: _ =>
      current_start <- py_index scene_changes 0 ;;
      last_timestamp <- py_index scene_changes 0 ;;
      Returns (segment_loop (tl scene_changes) current_start last_timestamp [])
  end.

(** ** Rounds from the win timestamps (worker.py, lines 205-250) *)

(** The inner [for start, end in gameplay_periods] with its [break]:
    whether [win_time] is appended to [valid_wins]. *)
Fixpoint within_some_period (win_time : Timestamp)
    (gameplay_periods : list GameplayPeriod) : bool :=
  match gameplay_periods with
  | [] => false
  | (s, e) :: rest =>
      if Qle_bool s win_time && Qle_bool win_time e then true
      else within_some_period win_time rest
  end.

Fixpoint valid_wins_of (round_win_timestamps : list Timestamp)
    (gameplay_periods : list GameplayPeriod) : list Timestamp :=
  match round_win_timestamps with
  | [] => []
  | win_time :: rest =>
      if within_some_period win_time gameplay_periods
      then win_time :: valid_wins_of rest gameplay_periods
      else valid_wins_of rest gameplay_periods
  end.

(** [gameplay_periods[0][0] if gameplay_periods else 0] *)
Definition first_gameplay_start_of (gameplay_periods : list GameplayPeriod)
  : Outcome Timestamp :=
  match gameplay_periods with
  | [] => Returns 0
  | _ :: _ => p <- py_index gameplay_periods 0 ;; Returns (fst p)
  end.

(** The body of [for i, win_time in enumerate(valid_wins)]. *)
Definition round_body (valid_wins : list Timestamp)
    (first_gameplay_start : Timestamp) (rounds : list Round)
    (i : Z) (win_time : Timestamp) : Outcome (list Round) :=
  round_start <-
    (if (i =? 0)%Z
     then Returns (py_max first_gameplay_start (win_time - 90))
     else prev <- py_index valid_wins (i - 1) ;; Returns (prev + 5)) ;;
  let round_end := win_time in
  let duration := round_end - round_start in
  if Qle_bool 30 duration && Qle_bool duration 300
  then Returns (rounds ++
                [ {| round := Z.of_nat (length rounds) + 1;
                     start := py_round round_start 2;
                     end_ := py_round round_end 2;
                     duration := py_round duration 2 |} ])
  else Returns rounds.

Fixpoint rounds_loop (valid_wins : list Timestamp)
    (first_gameplay_start : Timestamp)
    (todo : list (Z * Timestamp)) (rounds : list Round)
  : Outcome (list Round) :=
  match todo with
  | [] => Returns rounds
  | (i, win_time) :: todo' =>
      rounds' <- round_body valid_wins first_gameplay_start rounds i win_time ;;
      rounds_loop valid_wins first_gameplay_start todo' rounds'
  end.

Definition build_rounds_from_wins (round_win_timestamps : list Timestamp)
    (gameplay_periods : list GameplayPeriod) : Outcome (list Round) :=
  match round_win_timestamps with
  | [] => Returns []
  | _ :: _ =>
      let valid_wins := valid_wins_of round_win_timestamps gameplay_periods in
      match valid_wins with
      | [] => Returns []
      | _ :: _ =>
          first_gameplay_start <- first_gameplay_start_of gameplay_periods ;;
          rounds_loop valid_wins first_gameplay_start (enumerate valid_wins) []
      end
  end.

(** ** Frame scan and period detection
    (worker.py, [extract_keyframes_and_detect_rounds], lines 85-202) *)

(** Outcome of the [yt-dlp --dump-json] call: a nonzero return code (or
    any exception, all of which end in [return ([], [])]), or the
    ['duration'] entry of the decoded JSON when it has one. *)
Inductive InfoResult : Type :=
| InfoFailed
| InfoOk (duration : option Q).

(** What the external calls of one loop iteration yield: no frame (nonzero
    return code, timeout or any other exception handled inside the loop,
    all before the appends), the OCR text of the frame after [.upper()],
    or an exception that escapes the loop body (raised inside its own
    handler) and reaches the function's [except Exception]. *)
Inductive FrameResult : Type :=
| NoFrame
| FrameText (text : string)
| ScanAborted.

(** [needle in text] on strings. *)
Fixpoint py_in (needle text : string) : bool :=
  if String.prefix needle text then true
  else match text with
       | EmptyString => false
       | String _ text' => py_in needle text'
       end.

(** [int(x)]: truncation towards zero. *)
Definition py_int (x : Q) : Z := Z.quot (Qnum x) (Zpos (Qden x)).

(** [range(0, stop, step)] for a positive [step]. *)
Definition py_range (stop step : Z) : list Z :=
  map (fun k => (Z.of_nat k * step)%Z)
      (seq 0 (Z.to_nat ((stop + step - 1) / step))).

Section FrameScan.

Variable frame_at : Z -> FrameResult.

(** The [for timestamp in range(0, int(duration), sample_interval)]
    loop, lines 120-173. *)
Fixpoint scan_loop (timestamps : list Z)
    (round_win_timestamps scene_changes : list Timestamp)
  : option (list Timestamp * list Timestamp) :=
  match timestamps with
  | [] => Some (round_win_timestamps, scene_changes)
  | timestamp :: rest =>
      match frame_at timestamp with
      | NoFrame => scan_loop rest round_win_timestamps scene_changes
      | FrameText text =>
          let round_win_timestamps' :=
            if py_in "ROUND" text && py_in "WIN" text
            then round_win_timestamps ++ [inject_Z timestamp]
            else round_win_timestamps in
          scan_loop rest round_win_timestamps'
                    (scene_changes ++ [inject_Z timestamp])
      | ScanAborted => None
      end
  end.

Definition extract_keyframes_and_detect_rounds (info : InfoResult)
  : list Timestamp * list GameplayPeriod :=
  match info with
  | InfoFailed => ([], [])
  | InfoOk d =>
      let duration := match d with Some x => x | None => 3600 end in
      let sample_interval := 5%Z in
      match scan_loop (py_range (py_int duration) sample_interval) [] [] with
      | None => ([], [])
      | Some (round_win_timestamps, scene_changes) =>
          match segmentActivity scene_changes with
          | Returns gameplay_periods =>
              (round_win_timestamps, gameplay_periods)
          | Raises _ => ([], [])
          end
      end
  end.

End FrameScan.

(** ** Result selection (worker.py, [process_video], lines 253-309) *)

Inductive ProcessingResult : Type :=
| Failure (error : string)
| Success (video_id video_url : string) (rounds : list Round)
          (total_rounds : Z) (processed_at : Q).

(** A [redis_client.setex(key, ttl, value)] call. *)
Record CacheWrite : Type := mkCacheWrite {
  cw_key : string;
  cw_ttl : Z;
  cw_value : ProcessingResult
}.

Definition dquote : string := String "034"%char EmptyString.

Definition err_invalid_url : string := "Invalid YouTube URL".
Definition err_no_gameplay : string := "No gameplay detected".
Definition err_no_rounds : string :=
  ("No rounds detected - could not find " ++ dquote ++ "ROUND WIN"
     ++ dquote ++ " text")%string.
Definition err_no_build : string :=
  "Could not build rounds from detected wins".

Section ProcessVideo.

(** External collaborators: the URL parser, the cache lookup (already
    decoded, [None] for a miss or an empty entry), the two yt-dlp
    observations and the clock. *)
Variable extract_video_id : string -> option string.
Variable redis_get : string -> option ProcessingResult.
Variable video_info : string -> InfoResult.
Variable frame_at : string -> Z -> FrameResult.
Variable time_now : Q.

Definition process_video (video_url : string)
  : Outcome (ProcessingResult * option CacheWrite) :=
  match extract_video_id video_url with
  | None | Some EmptyString => Returns (Failure err_invalid_url, None)
  | Some video_id =>
      let cache_key := ("rounds:" ++ video_id)%string in
      match redis_get cache_key with
      | Some cached => Returns (cached, None)
      | None =>
          let '(round_win_timestamps, gameplay_periods) :=
            extract_keyframes_and_detect_rounds (frame_at video_url)
                                                (video_info video_url) in
          match gameplay_periods with
          | [] => Returns (Failure err_no_gameplay, None)
          | _ :: _ =>
              match round_win_timestamps with
              | [] => Returns (Failure err_no_rounds, None)
              | _ :: _ =>
                  rounds <- build_rounds_from_wins round_win_timestamps
                                                   gameplay_periods ;;
                  match rounds with
                  | [] => Returns (Failure err_no_build, None)
                  | _ :: _ =>
                      let result :=
                        Success video_id video_url rounds
                                (Z.of_nat (length rounds)) time_now in
                      Returns (result,
                               Some (mkCacheWrite cache_key
                                       (7 * 24 * 60 * 60) result))
                  end
              end
          end
      end
  end.

End ProcessVideo.

(** ** The round builder as the specification words it

    Candidates by position, the plausibility window and the
    externalisation of an accepted candidate, to be compared with
    [build_rounds_from_wins]. *)

Definition candidate_start (first_start : Timestamp)
    (events : list Timestamp) (i : nat) : Timestamp :=
  match i with
  | O => py_max first_start (nth 0 events 0 - 90)
  | S j => nth j events 0 + 5
  end.

Definition candidate (first_start : Timestamp) (events : list Timestamp)
    (i : nat) : Timestamp * Timestamp :=
  (candidate_start first_start events i, nth i events 0).

Definition candidates (first_start : Timestamp) (events : list Timestamp)
  : list (Timestamp * Timestamp) :=
  map (candidate first_start events) (seq 0 (length events)).

Definition candidate_duration (c : Timestamp * Timestamp) : Q :=
  snd c - fst c.

Definition plausible (c : Timestamp * Timestamp) : bool :=
  Qle_bool 30 (candidate_duration c) && Qle_bool (candidate_duration c) 300.

Definition externalize_one (index : Z) (c : Timestamp * Timestamp) : Round :=
  {| round := index;
     start := py_round (fst c) 2;
     end_ := py_round (snd c) 2;
     duration := py_round (candidate_duration c) 2 |}.

Fixpoint externalize (index : Z) (cs : list (Timestamp * Timestamp))
  : list Round :=
  match cs with
  | [] => []
  | c :: cs' => externalize_one index c :: externalize (index + 1) cs'
  end.

Definition first_period_start (periods : list GameplayPeriod) : Timestamp :=
  match periods with
  | [] => 0
  | (s, _) :: _ => s
  end.

Definition accepted_candidates (events : list Timestamp)
    (periods : list GameplayPeriod) : list (Timestamp * Timestamp) :=
  filter plausible
    (candidates (first_period_start periods) (valid_wins_of events periods)).

Definition within (p : GameplayPeriod) (t : Timestamp) : Prop :=
  fst p <= t /\ t <= snd p.

Definition ascending (l : list Timestamp) : Prop := Sorted Qle l.

(** Candidate [d] starts at least the post-win gap after [c] ends. *)
Definition chained (c d : Timestamp * Timestamp) : Prop :=
  snd c + 5 <= fst d.

(** Round [r2] starts strictly after round [r1] ends. *)
Definition precedes (r1 r2 : Round) : Prop := end_ r1 < start r2.

(** Reading of one frame observation: whether the timestamp is appended
    to [scene_changes], and whether it is appended to
    [round_win_timestamps]. *)
Definition frame_sampled (r : FrameResult) : bool :=
  match r with
  | FrameText _ => true
  | NoFrame | ScanAborted => false
  end.

Definition frame_round_win (r : FrameResult) : bool :=
  match r with
  | FrameText text => py_in "ROUND" text && py_in "WIN" text
  | NoFrame | ScanAborted => false
  end.

(** [p] ends strictly before [q] starts. *)
Definition before (p q : GameplayPeriod) : Prop := snd p < fst q.

(** No gap between consecutive samples exceeds the inactivity threshold,
    [prev] being the sample before the head of [l]. *)
Fixpoint gaps_within (prev : Timestamp) (l : list Timestamp) : Prop :=
  match l with
  | [] => True
  | t :: l' => t - prev <= 180 /\ gaps_within t l'
  end.

Definition ascending_periods (l : list GameplayPeriod) : Prop :=
  Sorted (fun p q => snd p <= fst q) l.

(** ** Video identifier (worker.py, [extract_video_id], lines 38-51) *)

(** The three fields of [urlparse(url)] the function reads. *)
Record ParseResult : Type := mkParseResult {
  netloc : string;
  path : string;
  query : string
}.

(** [s.lstrip(c)] for a one-character [c]. *)
Fixpoint py_lstrip (c : ascii) (s : string) : string :=
  match s with
  | EmptyString => EmptyString
  | String a s' => if Ascii.eqb a c then py_lstrip c s' else s
  end.

(** [s.split(sep)] for a non-empty [sep]: left to right, non-overlapping.
    [skip] counts the characters of a separator still to be consumed and
    [cur] is the piece being read. *)
Fixpoint split_go (sep : string) (skip : nat) (cur s : string)
  : list string :=
  match s with
  | EmptyString => [cur]
  | String c s' =>
      match skip with
      | S k => split_go sep k cur s'
      | O =>
          if String.prefix sep s
          then cur :: split_go sep (String.length sep - 1) EmptyString s'
          else split_go sep 0 (cur ++ String c EmptyString) s'
      end
  end.

Definition py_split (sep s : string) : list string :=
  split_go sep 0 EmptyString s.

(** [d.get(key)] on a dict given by its items. *)
Fixpoint dict_get {V : Type} (d : list (string * V)) (key : string)
  : option V :=
  match d with
  | [] => None
  | (k, v) :: d' => if String.eqb k key then Some v else dict_get d' key
  end.

Section ExtractVideoId.

(** [urllib.parse]: the URL parser and the query-string parser, the
    latter as the items of the dict it returns. *)
Variable urlparse : string -> ParseResult.
Variable parse_qs : string -> list (string * list string).

Definition extract_video_id (url : string) : Outcome (option string) :=
  let parsed := urlparse url in
  if py_in "youtu.be" (netloc parsed)
  then Returns (Some (py_lstrip "/" (path parsed)))
  else if py_in "youtube.com" (netloc parsed)
  then
    if py_in "/watch" (path parsed)
    then
      let query := parse_qs (query parsed) in
      match dict_get query "v" with
      | None => Returns None
      | Some values => v <- py_index values 0 ;; Returns (Some v)
      end
    else if py_in "/embed/" (path parsed)
    then
      after <- py_index (py_split "/embed/" (path parsed)) 1 ;;
      id <- py_index (py_split "?" after) 0 ;;
      Returns (Some id)
    else Returns None
  else Returns None.

End ExtractVideoId.

(** ** Job processing (worker.py, [process_job], lines 312-340) *)

(** What [process_video] does inside the [try]: it returns, or an
    exception reaches the handler, [message] being its [str(e)]. *)
Inductive Attempt (A : Type) : Type :=
| Returned (a : A)
| Raised (message : string).

Arguments Returned {A} a.
Arguments Raised {A} message.

(** A value stored by [setex]: a plain string or [json.dumps(result)]. *)
Inductive RedisValue : Type :=
| VText (s : string)
| VJson (r : ProcessingResult).

Record RedisWrite : Type := mkRedisWrite {
  rw_key : string;
  rw_ttl : Z;
  rw_value : RedisValue
}.

(** How an f-string prints a value that may be [None]. *)
Definition py_format (v : option string) : string :=
  match v with
  | Some s => s
  | None => "None"
  end.

Definition job_key (job_id : option string) (field : string) : string :=
  ("job:" ++ py_format job_id ++ ":" ++ field)%string.

(** The function returns its result together with the [setex] calls it
    made, in order.  [job_data] holds the items of the job dict. *)
Definition process_job
    (process_video : option string -> Attempt ProcessingResult)
    (job_data : list (string * string))
  : ProcessingResult * list RedisWrite :=
  let video_url := dict_get job_data "videoUrl" in
  let job_id := dict_get job_data "jobId" in
  let processing :=
    mkRedisWrite (job_key job_id "status") 3600 (VText "processing") in
  match process_video video_url with
  | Returned result =>
      (result,
       [ processing;
         mkRedisWrite (job_key job_id "result") 3600 (VJson result);
         mkRedisWrite (job_key job_id "status") 3600 (VText "completed") ])
  | Raised message =>
      (Failure message,
       [ processing;
         mkRedisWrite (job_key job_id "status") 3600 (VText "failed");
         mkRedisWrite (job_key job_id "error") 3600 (VText message) ])
  end.

(** The store after a sequence of [setex] calls: the last write to a key
    is the one read back. *)
Fixpoint redis_after (store : string -> option RedisValue)
    (writes : list RedisWrite) : string -> option RedisValue :=
  match writes with
  | [] => store
  | w :: writes' =>
      redis_after
        (fun key => if String.eqb key (rw_key w) then Some (rw_value w)
                    else store key)
        writes'
  end.

(** The cache as [process_video] sees it after one of its own writes. *)
Definition cache_after (redis_get : string -> option ProcessingResult)
    (write : option CacheWrite) : string -> option ProcessingResult :=
  match write with
  | None => redis_get
  | Some w => fun key => if String.eqb key (cw_key w) then Some (cw_value w)
                         else redis_get key
  end.

(** ** Auxiliary notions *)

(** Number of consecutive gaps exceeding the inactivity threshold, [prev]
    being the sample before the head of [l]. *)
Fixpoint count_gaps (prev : Timestamp) (l : list Timestamp) : nat :=
  match l with
  | [] => O
  | t :: l' =>
      ((if Qlt_bool 180 (t - prev) then 1 else 0) + count_gaps t l')%nat
  end.

(** Period [q] opens more than the inactivity threshold after [p]
    closes. *)
Definition gap_apart (p q : GameplayPeriod) : Prop := 180 < fst q - snd p.

(** A whole number of seconds. *)
Definition whole (q : Q) : Prop := exists z : Z, q == inject_Z z.

Example scenario3_runs :
  build_rounds_from_wins [95; 280] [(0, 400)] =
  Returns [ mkRound 1 5 95 90; mkRound 2 100 280 180 ].
Proof. vm_compute. reflexivity. Qed.

(** * Properties *)

(** ** Comparisons and indexing *)

Lemma Qlt_bool_true (a b : Q) : Qlt_bool a b = true <-> a < b.
Proof.
  unfold Qlt_bool. rewrite negb_true_iff, <- not_true_iff_false, Qle_bool_iff.
  split; [apply Qnot_le_lt | apply Qlt_not_le].
Qed.

Lemma Qlt_bool_false (a b : Q) : Qlt_bool a b = false <-> b <= a.
Proof.
  unfold Qlt_bool. now rewrite negb_false_iff, Qle_bool_iff.
Qed.

Lemma py_index_nth {A : Type} (l : list A) (n : nat) (a : A) :
  nth_error l n = Some a -> py_index l (Z.of_nat n) = Returns a.
Proof.
  intros H. unfold py_index.
  assert (L : (n < length l)%nat) by (apply nth_error_Some; congruence).
  destruct (Z.of_nat n <? 0)%Z eqn:N; [apply Z.ltb_lt in N; lia |].
  replace ((0 <=? Z.of_nat n) && (Z.of_nat n <? Z.of_nat (length l)))%Z
    with true
    by (symmetry; apply andb_true_iff; split;
        [apply Z.leb_le | apply Z.ltb_lt]; lia).
  now rewrite Nat2Z.id, H.
Qed.

Lemma py_index_head {A : Type} (a : A) (l : list A) :
  py_index (a :: l) 0 = Returns a.
Proof. now apply (py_index_nth (a :: l) 0). Qed.

(** ** Rounding *)

Lemma round_half_even_comp (p q : Q) :
  p == q -> round_half_even p = round_half_even q.
Proof.
  intros E. unfold round_half_even.
  assert (F : Qfloor p = Qfloor q) by (now apply Qfloor_comp).
  rewrite F.
  assert (C : Qcompare (p - inject_Z (Qfloor q)) (1 # 2)
              = Qcompare (q - inject_Z (Qfloor q)) (1 # 2))
    by (apply Qcompare_comp; [now rewrite E | reflexivity]).
  now rewrite C.
Qed.

Lemma round_half_even_near (q : Q) :
  inject_Z (round_half_even q) - (1 # 2) <= q /\
  q <= inject_Z (round_half_even q) + (1 # 2).
Proof.
  unfold round_half_even.
  pose proof (Qfloor_le q) as Hlo.
  pose proof (Qlt_floor q) as Hhi.
  rewrite inject_Z_plus in Hhi. change (inject_Z 1) with 1 in Hhi.
  destruct (Qcompare (q - inject_Z (Qfloor q)) (1 # 2)) eqn:C.
  - apply Qeq_alt in C.
    destruct (Z.even (Qfloor q)); rewrite ?inject_Z_plus;
      change (inject_Z 1) with 1; split; lra.
  - apply Qlt_alt in C. split; lra.
  - apply Qgt_alt in C. rewrite inject_Z_plus.
    change (inject_Z 1) with 1. split; lra.
Qed.

Lemma round_half_even_mono (p q : Q) :
  p <= q -> (round_half_even p <= round_half_even q)%Z.
Proof.
  intros L.
  destruct (Z_le_gt_dec (round_half_even p) (round_half_even q)) as [|G]; trivial.
  exfalso.
  destruct (round_half_even_near p) as [Hp _].
  destruct (round_half_even_near q) as [_ Hq].
  assert (G' : (round_half_even q + 1 <= round_half_even p)%Z) by lia.
  rewrite Zle_Qle, inject_Z_plus in G'. change (inject_Z 1) with 1 in G'.
  assert (E : p == q) by lra.
  apply round_half_even_comp in E. lia.
Qed.

Lemma round_half_even_inject (z : Z) : round_half_even (inject_Z z) = z.
Proof.
  unfold round_half_even. rewrite Qfloor_Z.
  assert (C : Qcompare (inject_Z z - inject_Z z) (1 # 2) = Lt).
  { rewrite <- Qlt_alt. lra. }
  now rewrite C.
Qed.

Lemma py_round_2 (x : Q) :
  py_round x 2 == inject_Z (round_half_even (x * 100)) / 100.
Proof. unfold py_round. rewrite Qred_correct. reflexivity. Qed.

Lemma py_round_2_near (x : Q) :
  x - (1 # 200) <= py_round x 2 /\ py_round x 2 <= x + (1 # 200).
Proof.
  rewrite py_round_2.
  destruct (round_half_even_near (x * 100)) as [A B].
  split.
  - apply Qle_shift_div_l; lra.
  - apply Qle_shift_div_r; lra.
Qed.

Lemma py_round_2_mono (x y : Q) : x <= y -> py_round x 2 <= py_round y 2.
Proof.
  intros L. rewrite !py_round_2.
  apply Qmult_le_compat_r; [| discriminate].
  rewrite <- Zle_Qle. apply round_half_even_mono. lra.
Qed.

Lemma py_round_2_comp (x y : Q) :
  x == y -> py_round x 2 == py_round y 2.
Proof.
  intros E. rewrite !py_round_2.
  assert (E' : x * 100 == y * 100) by (now rewrite E).
  now rewrite (round_half_even_comp _ _ E').
Qed.

Lemma py_round_2_hundredths (z : Z) :
  py_round (inject_Z z / 100) 2 == inject_Z z / 100.
Proof.
  rewrite py_round_2.
  assert (E : inject_Z z / 100 * 100 == inject_Z z) by (field).
  now rewrite (round_half_even_comp _ _ E), round_half_even_inject.
Qed.

(** ** Gameplay periods *)

Lemma segmentActivity_cons (x : Timestamp) (xs : list Timestamp) :
  segmentActivity (x :: xs) = Returns (segment_loop xs x x []).
Proof. unfold segmentActivity. now rewrite py_index_head. Qed.

Lemma segment_loop_acc (l : list Timestamp) :
  forall cs last acc,
    segment_loop l cs last acc = acc ++ segment_loop l cs last [].
Proof.
  induction l as [|t l IH]; intros cs last acc; simpl.
  - reflexivity.
  - destruct (Qlt_bool 180 (t - last)).
    + rewrite IH, (IH _ _ [(cs, last)]). now rewrite <- app_assoc.
    + apply IH.
Qed.

Lemma last_cons {A : Type} (l : list A) :
  forall a d, List.last (a :: l) d = List.last l a.
Proof.
  induction l as [|b l IH]; intros a d.
  - reflexivity.
  - change (List.last (b :: l) d = List.last (b :: l) a).
    now rewrite !IH.
Qed.

Lemma segment_loop_app (l1 l2 : list Timestamp) :
  forall cs last,
  exists P s e,
    segment_loop l1 cs last [] = P ++ [(s, e)] /\
    e = List.last l1 last /\
    segment_loop (l1 ++ l2) cs last [] = P ++ segment_loop l2 s e [].
Proof.
  induction l1 as [|t l1 IH]; intros cs last; cbn [segment_loop app].
  - exists [], cs, last. auto.
  - destruct (Qlt_bool 180 (t - last)).
    + destruct (IH t t) as (P & s & e & E1 & E2 & E3).
      exists ((cs, last) :: P), s, e.
      rewrite segment_loop_acc, (segment_loop_acc (l1 ++ l2)), E1, E3.
      rewrite last_cons. simpl. repeat split; trivial.
    + destruct (IH cs t) as (P & s & e & E1 & E2 & E3).
      exists P, s, e. rewrite last_cons. repeat split; trivial.
Qed.

Lemma segment_loop_head (l : list Timestamp) :
  forall last, exists e P,
    forall cs, segment_loop l cs last [] = (cs, e) :: P.
Proof.
  induction l as [|t l IH]; intros last; simpl.
  - exists last, []. reflexivity.
  - destruct (Qlt_bool 180 (t - last)).
    + exists last, (segment_loop l t t []). intros cs.
      now rewrite segment_loop_acc.
    + apply IH.
Qed.

Lemma segment_loop_no_gap (l : list Timestamp) :
  forall cs last,
    gaps_within last l ->
    segment_loop l cs last [] = [(cs, List.last l last)].
Proof.
  induction l as [|t l IH]; intros cs last G; cbn [segment_loop].
  - reflexivity.
  - destruct G as [G1 G2].
    apply Qlt_bool_false in G1. rewrite G1, (IH cs t G2).
    now rewrite last_cons.
Qed.

Lemma segment_around (l1 l2 : list Timestamp) (a b : Timestamp) :
  exists P1 s P2 e,
    segmentActivity (l1 ++ [a]) = Returns (P1 ++ [(s, a)]) /\
    segmentActivity (b :: l2) = Returns ((b, e) :: P2) /\
    segmentActivity (l1 ++ a :: b :: l2) =
      Returns (P1 ++ (if Qlt_bool 180 (b - a)
                      then (s, a) :: (b, e) :: P2
                      else (s, e) :: P2)).
Proof.
  assert (N : exists x m, l1 ++ [a] = x :: m /\ List.last m x = a).
  { destruct l1 as [|y l1].
    - exists a, []. auto.
    - exists y, (l1 ++ [a]). split; [reflexivity | apply last_last]. }
  destruct N as (x & m & Hxm & Hlast).
  replace (l1 ++ a :: b :: l2) with ((l1 ++ [a]) ++ b :: l2)
    by (now rewrite <- app_assoc).
  rewrite Hxm. cbn [app]. rewrite !segmentActivity_cons.
  destruct (segment_loop_app m (b :: l2) x x) as (P & s & e & E1 & E2 & E3).
  destruct (segment_loop_head l2 b) as (e' & P2 & Hhead).
  rewrite Hlast in E2. subst e.
  exists P, s, P2, e'. rewrite E1, E3, (Hhead b). cbn [segment_loop].
  repeat split.
  destruct (Qlt_bool 180 (b - a)).
  - now rewrite segment_loop_acc, (Hhead b).
  - now rewrite (Hhead s).
Qed.



Lemma ascending_strongly (l : list Timestamp) :
  ascending l -> StronglySorted Qle l.
Proof.
  apply Sorted_StronglySorted. intros x y z. apply Qle_trans.
Qed.

Lemma StronglySorted_nth_error {A : Type} (R : A -> A -> Prop) (l : list A) :
  StronglySorted R l ->
  forall i j a b,
    (i < j)%nat -> nth_error l i = Some a -> nth_error l j = Some b -> R a b.
Proof.
  induction 1 as [|x l S IH F]; intros i j a b Lt Hi Hj.
  - now destruct i.
  - destruct j as [|j]; [lia |]. cbn in Hj.
    destruct i as [|i]; cbn in Hi.
    + injection Hi as <-. rewrite Forall_forall in F.
      apply F. eapply nth_error_In; eauto.
    + apply (IH i j); trivial. lia.
Qed.

Lemma segment_loop_invariant (l : list Timestamp) :
  forall cs last,
    cs <= last ->
    StronglySorted Qle (last :: l) ->
    Forall (fun p => cs <= fst p /\ fst p <= snd p)
           (segment_loop l cs last []) /\
    StronglySorted before (segment_loop l cs last []) /\
    (exists e P, segment_loop l cs last [] = (cs, e) :: P /\ last <= e) /\
    (forall x, In x l ->
               Exists (fun p => within p x) (segment_loop l cs last [])).
Proof.
  induction l as [|t l IH]; intros cs last Hcs HS; cbn [segment_loop].
  - repeat split.
    + constructor; [split; [apply Qle_refl | trivial] | constructor].
    + repeat constructor.
    + exists last, []. split; [reflexivity | apply Qle_refl].
    + intros x [].
  - apply StronglySorted_inv in HS. destruct HS as [HS HF].
    assert (Hlt : last <= t) by (inversion HF; trivial).
    destruct (Qlt_bool 180 (t - last)) eqn:G.
    + apply Qlt_bool_true in G.
      destruct (IH t t (Qle_refl t) HS) as (F & S & (e & P & E & He) & C).
      rewrite segment_loop_acc. cbn [app].
      repeat split.
      * constructor; [split; [apply Qle_refl | trivial] |].
        eapply Forall_impl; [| exact F].
        cbn [fst snd]. intros p [A B]. split; [lra | trivial].
      * constructor; trivial.
        eapply Forall_impl; [| exact F].
        unfold before. cbn [fst snd]. intros p [A B]. lra.
      * exists last, (segment_loop l t t []).
        split; [reflexivity | apply Qle_refl].
      * intros x [<- | Hx]; apply Exists_cons_tl.
        -- rewrite E. apply Exists_cons_hd. split; cbn [fst snd]; [apply Qle_refl | trivial].
        -- now apply C.
    + assert (Hct : cs <= t) by lra.
      destruct (IH cs t Hct HS) as (F & S & (e & P & E & He) & C).
      repeat split; trivial.
      * exists e, P. split; [trivial | lra].
      * intros x [<- | Hx]; [| now apply C].
        rewrite E. apply Exists_cons_hd. split; cbn [fst snd]; trivial.
Qed.

Lemma periods_disjoint (R : list GameplayPeriod) (x : Timestamp) :
  StronglySorted before R ->
  Forall (fun p => fst p <= snd p) R ->
  forall i j p q,
    nth_error R i = Some p -> nth_error R j = Some q ->
    within p x -> within q x -> i = j.
Proof.
  intros S F i j p q Hi Hj [P1 P2] [Q1 Q2].
  destruct (Nat.lt_trichotomy i j) as [L | [E | L]]; trivial; exfalso.
  - pose proof (StronglySorted_nth_error _ _ S i j p q L Hi Hj) as B.
    unfold before in B. lra.
  - pose proof (StronglySorted_nth_error _ _ S j i q p L Hj Hi) as B.
    unfold before in B. lra.
Qed.

(** C5. On an ascending sample sequence the periods returned each have
    [start <= end], every earlier period ends strictly before every later
    one starts (so they are chronologically ordered and pairwise
    non-overlapping), and every input sample lies within the closed bound
    of exactly one returned period. *)
Theorem C5_periods_ordered_disjoint_cover (samples : list Timestamp) :
  ascending samples ->
  exists periods,
    segmentActivity samples = Returns periods /\
    Forall (fun p => fst p <= snd p) periods /\
    (forall i j p q,
        (i < j)%nat ->
        nth_error periods i = Some p -> nth_error periods j = Some q ->
        snd p < fst q) /\
    (forall x,
        In x samples ->
        exists i p,
          nth_error periods i = Some p /\ within p x /\
          forall j q,
            nth_error periods j = Some q -> within q x -> j = i).
Proof.
  intros Asc. apply ascending_strongly in Asc.
  destruct samples as [|x0 xs].
  - exists []. repeat split; trivial.
    + intros i j p q _ Hi. now destruct i.
    + intros x [].
  - rewrite segmentActivity_cons.
    destruct (segment_loop_invariant xs x0 x0 (Qle_refl x0) Asc)
      as (F & S & (e & P & E & He) & C).
    exists (segment_loop xs x0 x0 []).
    assert (F' : Forall (fun p => fst p <= snd p) (segment_loop xs x0 x0 []))
      by (eapply Forall_impl; [| exact F]; cbn beta; tauto).
    repeat split; trivial.
    + intros i j p q L Hi Hj.
      exact (StronglySorted_nth_error _ _ S i j p q L Hi Hj).
    + intros x Hx.
      assert (Ex : Exists (fun p => within p x) (segment_loop xs x0 x0 [])).
      { destruct Hx as [<- | Hx]; [| now apply C].
        rewrite E. apply Exists_cons_hd. split; cbn [fst snd]; [apply Qle_refl | trivial]. }
      apply Exists_exists in Ex. destruct Ex as (p & Hin & Hw).
      apply In_nth_error in Hin. destruct Hin as [i Hi].
      exists i, p. repeat split; trivial; try apply Hw.
      intros j q Hj Hq.
      exact (periods_disjoint _ x S F' j i q p Hj Hi Hq Hw).
Qed.

Lemma C5_witness :
  exists periods,
    segmentActivity [0; 5; 10; 200; 205] = Returns periods /\
    Forall (fun p => fst p <= snd p) periods /\
    (forall i j p q,
        (i < j)%nat ->
        nth_error periods i = Some p -> nth_error periods j = Some q ->
        snd p < fst q) /\
    (forall x,
        In x [0; 5; 10; 200; 205] ->
        exists i p,
          nth_error periods i = Some p /\ within p x /\
          forall j q,
            nth_error periods j = Some q -> within q x -> j = i).
Proof.
  apply (C5_periods_ordered_disjoint_cover [0; 5; 10; 200; 205]).
  unfold ascending. repeat constructor; discriminate.
Defined.

(** ** The round builder refines its specification *)

Lemma first_gameplay_start_of_spec (periods : list GameplayPeriod) :
  first_gameplay_start_of periods = Returns (first_period_start periods).
Proof.
  destruct periods as [|[s e] periods]; cbn [first_gameplay_start_of].
  - reflexivity.
  - now rewrite py_index_head.
Qed.

Lemma skipn_nth {A : Type} (d : A) (l : list A) :
  forall k, (k < length l)%nat -> skipn k l = nth k l d :: skipn (S k) l.
Proof.
  induction l as [|a l IH]; intros k L; cbn [length] in L.
  - lia.
  - destruct k as [|k]; [reflexivity |].
    cbn [skipn nth]. apply IH. lia.
Qed.

Lemma round_body_spec (valid_wins : list Timestamp) (fgs : Timestamp)
    (rounds : list Round) (k : nat) :
  (k < length valid_wins)%nat ->
  round_body valid_wins fgs rounds (Z.of_nat k) (nth k valid_wins 0) =
  Returns (if plausible (candidate fgs valid_wins k)
           then rounds ++ [externalize_one (Z.of_nat (length rounds) + 1)
                                           (candidate fgs valid_wins k)]
           else rounds).
Proof.
  intros L. unfold round_body.
  destruct k as [|k].
  - cbn [Z.of_nat Z.eqb bind].
    unfold plausible, candidate_duration, externalize_one, candidate,
      candidate_start; cbn [fst snd].
    now destruct (Qle_bool 30 _ && Qle_bool _ 300).
  - replace (Z.of_nat (S k) =? 0)%Z with false
      by (symmetry; apply Z.eqb_neq; lia).
    replace (Z.of_nat (S k) - 1)%Z with (Z.of_nat k) by lia.
    rewrite (py_index_nth valid_wins k (nth k valid_wins 0))
      by (apply nth_error_nth'; lia).
    cbn [bind].
    unfold plausible, candidate_duration, externalize_one, candidate,
      candidate_start; cbn [fst snd].
    now destruct (Qle_bool 30 _ && Qle_bool _ 300).
Qed.

Lemma rounds_loop_spec (valid_wins : list Timestamp) (fgs : Timestamp) :
  forall n k rounds,
    (k + n = length valid_wins)%nat ->
    rounds_loop valid_wins fgs
      (combine (map Z.of_nat (seq k n)) (skipn k valid_wins)) rounds =
    Returns (rounds ++
             externalize (Z.of_nat (length rounds) + 1)
               (filter plausible (map (candidate fgs valid_wins) (seq k n)))).
Proof.
  induction n as [|n IH]; intros k rounds L.
  - cbn. now rewrite app_nil_r.
  - rewrite (skipn_nth 0 valid_wins k) by lia.
    cbn [seq map combine rounds_loop filter].
    rewrite round_body_spec by lia. cbn [bind].
    rewrite IH by lia.
    destruct (plausible (candidate fgs valid_wins k)).
    + cbn [externalize]. rewrite length_app, <- app_assoc. cbn [length app].
      replace (Z.of_nat (length rounds + 1) + 1)%Z
        with (Z.of_nat (length rounds) + 1 + 1)%Z by lia.
      reflexivity.
    + reflexivity.
Qed.

(** The source function computes exactly the specification's pipeline:
    filter the events, form the candidates, keep the plausible ones,
    number and round them. *)
Lemma build_rounds_refines (events : list Timestamp)
    (periods : list GameplayPeriod) :
  build_rounds_from_wins events periods =
  Returns (externalize 1 (accepted_candidates events periods)).
Proof.
  unfold build_rounds_from_wins, accepted_candidates.
  destruct events as [|w ws]; [reflexivity |].
  cbv zeta.
  destruct (valid_wins_of (w :: ws) periods) as [|v vs] eqn:V; [reflexivity |].
  rewrite first_gameplay_start_of_spec. cbn [bind].
  unfold enumerate, candidates.
  exact (rounds_loop_spec (v :: vs) (first_period_start periods)
           (length (v :: vs)) 0 [] eq_refl).
Qed.

Lemma plausible_true (c : Timestamp * Timestamp) :
  plausible c = true <->
  30 <= candidate_duration c /\ candidate_duration c <= 300.
Proof.
  unfold plausible. now rewrite andb_true_iff, !Qle_bool_iff.
Qed.

Lemma candidates_nth_error (fs : Timestamp) (vw : list Timestamp) (i : nat) :
  (i < length vw)%nat ->
  nth_error (candidates fs vw) i = Some (candidate fs vw i).
Proof.
  intros L. unfold candidates.
  rewrite nth_error_map, nth_error_nth' with (d := O)
    by (now rewrite length_seq).
  now rewrite seq_nth.
Qed.

Lemma externalize_length (cs : list (Timestamp * Timestamp)) :
  forall k, length (externalize k cs) = length cs.
Proof.
  induction cs as [|c cs IH]; intros k; cbn; [| rewrite IH]; reflexivity.
Qed.

Lemma externalize_round (cs : list (Timestamp * Timestamp)) :
  forall k n,
    k = Z.of_nat n ->
    map round (externalize k cs) = map Z.of_nat (seq n (length cs)).
Proof.
  induction cs as [|c cs IH]; intros k n E; cbn [externalize map length seq].
  - reflexivity.
  - cbn [externalize_one round]. rewrite (IH _ (S n)) by lia.
    now subst k.
Qed.

Lemma externalize_Forall (P : Round -> Prop)
    (cs : list (Timestamp * Timestamp)) :
  (forall k c, In c cs -> P (externalize_one k c)) ->
  forall k, Forall P (externalize k cs).
Proof.
  induction cs as [|c cs IH]; intros H k; cbn [externalize]; constructor.
  - apply H. now left.
  - apply IH. intros k' c' Hin. apply H. now right.
Qed.





(** C4. The index fields of the returned Rounds are 1, 2, ..., n in
    output order, n being the number of accepted candidates; rejected
    candidates leave no gap.  Scenario 4: a candidate of duration 10
    between two accepted ones is dropped and the accepted ones are
    numbered 1 and 2. *)
Theorem C4_dense_indices (events : list Timestamp)
    (periods : list GameplayPeriod) :
  (exists rounds,
      build_rounds_from_wins events periods = Returns rounds /\
      length rounds = length (accepted_candidates events periods) /\
      map round rounds = map Z.of_nat (seq 1 (length rounds))) /\
  build_rounds_from_wins [95; 110; 280] [(0, 400)] =
    Returns [ mkRound 1 5 95 90; mkRound 2 115 280 165 ].
Proof.
  split; [| reflexivity].
  eexists. split; [apply build_rounds_refines |].
  rewrite externalize_length. split; [reflexivity |].
  now apply externalize_round.
Qed.

(** ** Order of the rounds *)

Lemma valid_wins_of_filter (events : list Timestamp)
    (periods : list GameplayPeriod) :
  valid_wins_of events periods =
  filter (fun w => within_some_period w periods) events.
Proof.
  induction events as [|w ws IH]; cbn [valid_wins_of filter].
  - reflexivity.
  - now rewrite IH.
Qed.

Lemma StronglySorted_filter_keep {A : Type} (R : A -> A -> Prop)
    (f : A -> bool) (l : list A) :
  StronglySorted R l -> StronglySorted R (filter f l).
Proof.
  induction 1 as [|x l S IH F]; cbn [filter].
  - constructor.
  - destruct (f x); trivial.
    constructor; trivial.
    rewrite Forall_forall in *. intros y Hy.
    apply filter_In in Hy. now apply F.
Qed.

Lemma StronglySorted_map_seq {A : Type} (R : A -> A -> Prop) (f : nat -> A) :
  forall n k,
    (forall i j, (k <= i)%nat -> (i < j)%nat -> (j < k + n)%nat ->
                 R (f i) (f j)) ->
    StronglySorted R (map f (seq k n)).
Proof.
  induction n as [|n IH]; intros k H; cbn [seq map].
  - constructor.
  - constructor.
    + apply IH. intros i j Hi Hij Hj. apply H; lia.
    + rewrite Forall_forall. intros y Hy.
      apply in_map_iff in Hy. destruct Hy as (j & <- & Hj).
      apply in_seq in Hj. apply H; lia.
Qed.

Lemma ascending_nth (l : list Timestamp) (i j : nat) :
  StronglySorted Qle l ->
  (i <= j)%nat -> (j < length l)%nat -> nth i l 0 <= nth j l 0.
Proof.
  intros S Hij Hj.
  destruct (Nat.eq_dec i j) as [-> | N]; [apply Qle_refl |].
  apply (StronglySorted_nth_error _ _ S i j); try lia;
    apply nth_error_nth'; lia.
Qed.

Lemma candidates_chained (fs : Timestamp) (vw : list Timestamp) :
  StronglySorted Qle vw -> StronglySorted chained (candidates fs vw).
Proof.
  intros S. unfold candidates. apply StronglySorted_map_seq.
  intros i j _ Hij Hj. unfold chained, candidate. cbn [fst snd].
  destruct j as [|j]; [lia |]. cbn [candidate_start].
  assert (L : nth i vw 0 <= nth j vw 0) by (apply ascending_nth; trivial; lia).
  lra.
Qed.

Lemma py_round_2_chained (e s : Q) :
  e + 5 <= s -> py_round e 2 < py_round s 2.
Proof.
  intros H.
  destruct (py_round_2_near e) as [_ He].
  destruct (py_round_2_near s) as [Hs _].
  lra.
Qed.

Lemma externalize_precedes (cs : list (Timestamp * Timestamp)) :
  StronglySorted chained cs ->
  forall k, StronglySorted precedes (externalize k cs).
Proof.
  induction 1 as [|c cs S IH F]; intros k; cbn [externalize].
  - constructor.
  - constructor; [apply IH |].
    apply externalize_Forall. intros k' d Hd.
    rewrite Forall_forall in F. specialize (F d Hd).
    unfold precedes, chained in *. cbn [externalize_one end_ start].
    now apply py_round_2_chained.
Qed.



(** ** Empty inputs and totality *)

Lemma valid_wins_of_no_periods (events : list Timestamp) :
  valid_wins_of events [] = [].
Proof. induction events as [|w ws IH]; [reflexivity | exact IH]. Qed.

(** C7. The builder returns the empty sequence for an empty event
    sequence and for an empty period sequence, the segmenter returns the
    empty sequence for an empty sample sequence, and on every input
    both return a value: neither raises. *)
Theorem C7_empty_inputs_and_no_exception :
  (forall periods, build_rounds_from_wins [] periods = Returns []) /\
  (forall events, build_rounds_from_wins events [] = Returns []) /\
  segmentActivity [] = Returns [] /\
  (forall events periods,
      exists rounds, build_rounds_from_wins events periods = Returns rounds) /\
  (forall samples,
      exists periods, segmentActivity samples = Returns periods).
Proof.
  repeat split.
  - intros events. rewrite build_rounds_refines.
    unfold accepted_candidates. now rewrite valid_wins_of_no_periods.
  - intros events periods. eexists. apply build_rounds_refines.
  - intros [|x xs]; eexists; [reflexivity | apply segmentActivity_cons].
Qed.

(** ** Where a round ends *)

Lemma within_some_period_true (w : Timestamp)
    (periods : list GameplayPeriod) :
  within_some_period w periods = true <->
  exists p, In p periods /\ within p w.
Proof.
  induction periods as [|[s e] periods IH]; cbn [within_some_period].
  - split; [discriminate | intros (p & [] & _)].
  - destruct (Qle_bool s w && Qle_bool w e) eqn:B.
    + split; trivial. intros _. exists (s, e). split; [now left |].
      apply andb_true_iff in B. rewrite !Qle_bool_iff in B. exact B.
    + rewrite IH. split.
      * intros (p & Hin & Hw). exists p. split; [now right | trivial].
      * intros (p & [<- | Hin] & Hw); [| now exists p].
        exfalso. destruct Hw as [W1 W2]. cbn [fst snd] in *.
        apply Qle_bool_iff in W1, W2. rewrite W1, W2 in B. discriminate.
Qed.

Lemma candidates_end_in (fs : Timestamp) (vw : list Timestamp)
    (c : Timestamp * Timestamp) :
  In c (candidates fs vw) -> In (snd c) vw.
Proof.
  unfold candidates. intros H.
  apply in_map_iff in H. destruct H as (i & <- & Hi).
  apply in_seq in Hi. cbn [candidate snd]. apply nth_In. lia.
Qed.

(** C10. Every returned Round ends at (the rounding of) an input event
    timestamp that lies within the closed bound of some input gameplay
    period.  Nothing of the kind holds for the start: with periods
    (0, 10), (200, 300) and events 10, 250 the one returned Round starts
    at 15, outside every period. *)
Theorem C10_round_end_is_valid_event :
  (forall events periods,
      exists rounds,
        build_rounds_from_wins events periods = Returns rounds /\
        Forall (fun r =>
                  exists w,
                    In w events /\
                    (exists p, In p periods /\ within p w) /\
                    end_ r = py_round w 2) rounds) /\
  (exists events periods r,
      ascending events /\ ascending_periods periods /\
      accepted_candidates events periods = [(15, 250)] /\
      build_rounds_from_wins events periods = Returns [r] /\
      start r = 15 /\
      forall p, In p periods -> ~ within p (start r)).
Proof.
  split.
  - intros events periods. eexists.
    split; [apply build_rounds_refines |].
    apply externalize_Forall. intros k c Hin.
    unfold accepted_candidates in Hin.
    apply filter_In in Hin. destruct Hin as [Hin _].
    apply candidates_end_in in Hin.
    rewrite valid_wins_of_filter in Hin.
    apply filter_In in Hin. destruct Hin as [Hev Hw].
    exists (snd c). split; [trivial | split; [| reflexivity]].
    now apply within_some_period_true.
  - exists [10; 250], [(0, 10); (200, 300)], (mkRound 1 15 250 235).
    repeat split.
    + unfold ascending. repeat constructor. discriminate.
    + unfold ascending_periods. repeat constructor. discriminate.
    + intros p [<- | [<- | []]] [W1 W2]; cbn [fst snd start] in W1, W2; lra.
Qed.

Lemma C10_witness :
  exists rounds,
    build_rounds_from_wins [10; 250] [(0, 10); (200, 300)] = Returns rounds /\
    Forall (fun r =>
              exists w,
                In w [10; 250] /\
                (exists p, In p [(0, 10); (200, 300)] /\ within p w) /\
                end_ r = py_round w 2) rounds.
Proof.
  exact (proj1 C10_round_end_is_valid_event
               [10; 250] [(0, 10); (200, 300)]).
Defined.

(** ** Rounding at externalisation *)

Lemma py_round_2_difference (s e : Q) :
  Qabs (py_round (e - s) 2 - (py_round e 2 - py_round s 2)) <= 1 # 100.
Proof.
  rewrite !py_round_2.
  destruct (round_half_even_near ((e - s) * 100)) as [D1 D2].
  destruct (round_half_even_near (e * 100)) as [E1 E2].
  destruct (round_half_even_near (s * 100)) as [S1 S2].
  set (kd := round_half_even ((e - s) * 100)) in *.
  set (ke := round_half_even (e * 100)) in *.
  set (ks := round_half_even (s * 100)) in *.
  assert (I : inject_Z (kd - ke + ks)
              == inject_Z kd - inject_Z ke + inject_Z ks).
  { unfold Z.sub. rewrite !inject_Z_plus, inject_Z_opp. ring. }
  assert (U : (kd - ke + ks < 2)%Z)
    by (rewrite Zlt_Qlt, I; change (inject_Z 2) with 2; lra).
  assert (L : (-2 < kd - ke + ks)%Z)
    by (rewrite Zlt_Qlt, I; change (inject_Z (-2)) with (-2); lra).
  assert (U' : (kd - ke + ks <= 1)%Z) by lia.
  assert (L' : (-1 <= kd - ke + ks)%Z) by lia.
  rewrite Zle_Qle, I in U', L'.
  change (inject_Z 1) with 1 in U'. change (inject_Z (-1)) with (-1) in L'.
  assert (E : inject_Z kd / 100 - (inject_Z ke / 100 - inject_Z ks / 100)
              == (inject_Z kd - inject_Z ke + inject_Z ks) * (1 # 100))
    by field.
  rewrite E. apply Qabs_Qle_condition.
  split; lra.
Qed.

(** C9, the claim as stated fails: with the period (1/256, 1000) and the
    event 50 + 1/128 the one Round is externalised with start 0.00,
    end 50.01 and duration 50.00, so duration differs from end - start
    over the externalised fields.  The inputs are dyadic, so every
    operation involved is exact on binary floats as well. *)
Lemma C9_counterexample :
  exists r,
    build_rounds_from_wins [6401 # 128] [(1 # 256, 1000)] = Returns [r] /\
    start r == 0 /\ end_ r == 5001 # 100 /\ duration r == 50 /\
    ~ duration r == end_ r - start r.
Proof.
  exists (mkRound 1 0 (5001 # 100) 50).
  repeat split; cbn [start end_ duration]; try reflexivity.
  intros H. discriminate H.
Qed.

(** C9, amended.  Rounding to two decimals happens only where a Round is
    externalised: the plausibility test and the chaining of the next
    start from the previous event use unrounded values, and the three
    fields are the roundings of the unrounded start, end and
    [end - start].  The duration field therefore differs from
    [end - start] over the externalised fields by at most 0.01.  A
    candidate of unrounded duration 29.996 is rejected although it
    rounds to 30.00, whether the fraction comes from its own event or
    from the previous event it is chained from. *)
Theorem C9_rounding_only_when_externalised :
  (forall events periods,
      exists rounds,
        build_rounds_from_wins events periods = Returns rounds /\
        rounds = externalize 1 (accepted_candidates events periods) /\
        Forall (fun r => Qabs (duration r - (end_ r - start r)) <= 1 # 100)
               rounds) /\
  (forall k c,
      externalize_one k c =
      mkRound k (py_round (fst c) 2) (py_round (snd c) 2)
              (py_round (snd c - fst c) 2)) /\
  (forall k c zs ze,
      fst c == inject_Z zs / 100 -> snd c == inject_Z ze / 100 ->
      duration (externalize_one k c) ==
      end_ (externalize_one k c) - start (externalize_one k c)) /\
  build_rounds_from_wins [100; 134996 # 1000] [(0, 1000)] =
    Returns [ mkRound 1 10 100 90 ] /\
  build_rounds_from_wins [100004 # 1000; 135] [(0, 1000)] =
    Returns [ mkRound 1 10 100 90 ].
Proof.
  split; [| split; [reflexivity | split; [| split; reflexivity]]].
  - intros events periods. eexists.
    split; [apply build_rounds_refines | split; [reflexivity |]].
    apply externalize_Forall. intros k c _.
    cbn [externalize_one duration end_ start]. unfold candidate_duration.
    apply py_round_2_difference.
  - intros k c zs ze Hs He.
    cbn [externalize_one duration end_ start]. unfold candidate_duration.
    assert (Hd : snd c - fst c == inject_Z (ze - zs) / 100).
    { rewrite Hs, He. unfold Z.sub. rewrite inject_Z_plus, inject_Z_opp.
      field. }
    rewrite (py_round_2_comp _ _ Hd), (py_round_2_comp _ _ Hs),
      (py_round_2_comp _ _ He), !py_round_2_hundredths.
    unfold Z.sub. rewrite inject_Z_plus, inject_Z_opp. field.
Qed.

Lemma C9_witness :
  duration (externalize_one 1 (5, 95)) ==
  end_ (externalize_one 1 (5, 95)) - start (externalize_one 1 (5, 95)).
Proof.
  destruct C9_rounding_only_when_externalised as (_ & _ & H & _).
  apply (H 1%Z (5, 95) 500%Z 9500%Z); reflexivity.
Defined.

(** ** From the frame scan to the reported reason *)

Lemma scan_loop_spec (frame_at : Z -> FrameResult) (ts : list Z) :
  forall rw sc r,
    scan_loop frame_at ts rw sc = Some r ->
    r =
    (rw ++ map inject_Z (filter (fun t => frame_round_win (frame_at t)) ts),
     sc ++ map inject_Z (filter (fun t => frame_sampled (frame_at t)) ts)).
Proof.
  induction ts as [|t ts IH]; intros rw sc r; cbn [scan_loop filter map].
  - intros [= <-]. now rewrite !app_nil_r.
  - destruct (frame_at t) as [|text|];
      cbn [frame_round_win frame_sampled].
    + apply IH.
    + intros H. apply IH in H. subst r. cbn [map].
      destruct (py_in "ROUND" text && py_in "WIN" text); cbn [map];
        now rewrite <- !app_assoc.
    + discriminate.
Qed.

Lemma StronglySorted_map_rel {A B : Type} (R : A -> A -> Prop)
    (R' : B -> B -> Prop) (f : A -> B) (l : list A) :
  (forall a b, R a b -> R' (f a) (f b)) ->
  StronglySorted R l -> StronglySorted R' (map f l).
Proof.
  intros H. induction 1 as [|x l S IH F]; cbn [map]; constructor; trivial.
  rewrite Forall_forall in *. intros y Hy.
  apply in_map_iff in Hy. destruct Hy as (a & <- & Ha). auto.
Qed.

Lemma py_range_increasing (stop : Z) : StronglySorted Z.lt (py_range stop 5).
Proof.
  unfold py_range. apply StronglySorted_map_seq. intros i j _ Hij _. lia.
Qed.

Lemma scene_changes_ascending (frame_at : Z -> FrameResult) (stop : Z) :
  StronglySorted Qle
    (map inject_Z
       (filter (fun t => frame_sampled (frame_at t)) (py_range stop 5))).
Proof.
  apply StronglySorted_map_rel with (R := Z.lt).
  - intros a b L. rewrite <- Zle_Qle. lia.
  - apply StronglySorted_filter_keep, py_range_increasing.
Qed.

Lemma segmentActivity_covers (samples : list Timestamp)
    (periods : list GameplayPeriod) :
  StronglySorted Qle samples ->
  segmentActivity samples = Returns periods ->
  forall x, In x samples -> exists p, In p periods /\ within p x.
Proof.
  intros S E x Hx.
  destruct samples as [|x0 xs]; [destruct Hx |].
  rewrite segmentActivity_cons in E. injection E as <-.
  destruct (segment_loop_invariant xs x0 x0 (Qle_refl x0) S)
    as (_ & _ & (e & P & Eq & He) & C).
  apply Exists_exists.
  destruct Hx as [<- | Hx]; [| now apply C].
  rewrite Eq. apply Exists_cons_hd.
  split; cbn [fst snd]; [apply Qle_refl | trivial].
Qed.

Lemma filter_keeps_all {A : Type} (f : A -> bool) (l : list A) :
  (forall x, In x l -> f x = true) -> filter f l = l.
Proof.
  induction l as [|a l IH]; intros H; cbn [filter]; [reflexivity |].
  rewrite (H a) by now left.
  f_equal. apply IH. intros x Hx. apply H. now right.
Qed.

(** Every win timestamp the scan reports was also recorded as a sample,
    hence lies in one of the periods built from the samples: the
    validity filter removes nothing from what the scan produced. *)
Lemma extracted_wins_all_valid (frame_at : Z -> FrameResult)
    (info : InfoResult) (events : list Timestamp)
    (periods : list GameplayPeriod) :
  extract_keyframes_and_detect_rounds frame_at info = (events, periods) ->
  valid_wins_of events periods = events.
Proof.
  unfold extract_keyframes_and_detect_rounds.
  destruct info as [|d]; [now intros [= <- <-] |].
  cbv zeta. set (ts := py_range _ 5).
  destruct (scan_loop frame_at ts [] []) as [[rw sc]|] eqn:Scan;
    [| now intros [= <- <-]].
  apply scan_loop_spec in Scan. cbn [app] in Scan.
  injection Scan as -> ->.
  destruct (segmentActivity
              (map inject_Z (filter (fun t => frame_sampled (frame_at t)) ts)))
    as [gp | err] eqn:E; [| now intros [= <- <-]].
  intros [= <- <-].
  rewrite valid_wins_of_filter. apply filter_keeps_all.
  intros w Hw. apply within_some_period_true.
  apply (segmentActivity_covers _ _ (scene_changes_ascending frame_at _) E).
  apply in_map_iff in Hw. destruct Hw as (t & <- & Ht).
  apply filter_In in Ht. destruct Ht as [Ht Hwin].
  apply in_map, filter_In. split; trivial.
  destruct (frame_at t); [discriminate | reflexivity | discriminate].
Qed.



(** The third reason string is the one reported when wins were detected
    but no candidate is plausible, e.g. a single win at the very first
    sample. *)
Remark no_build_reason_example :
  process_video (fun _ => Some "dQw4w9WgXcQ"%string) (fun _ => None)
                (fun _ => InfoOk (Some 10))
                (fun _ _ => FrameText "ROUND WIN") 0
                "https://youtu.be/dQw4w9WgXcQ"
  = Returns (Failure err_no_build, None).
Proof. reflexivity. Qed.

(** * Further properties of the code *)

(** ** Shape of the gameplay periods *)

Lemma segment_loop_gap_apart (l : list Timestamp) :
  forall cs last, Sorted gap_apart (segment_loop l cs last []).
Proof.
  induction l as [|t l IH]; intros cs last; cbn [segment_loop].
  - repeat constructor.
  - destruct (Qlt_bool 180 (t - last)) eqn:G; [| apply IH].
    rewrite segment_loop_acc. cbn [app].
    constructor; [apply IH |].
    destruct (segment_loop_head l t) as (e & P & H). rewrite (H t).
    constructor. unfold gap_apart. cbn [fst snd].
    now apply Qlt_bool_true.
Qed.

Lemma Sorted_nth_error_succ {A : Type} (R : A -> A -> Prop) (l : list A) :
  Sorted R l ->
  forall k a b,
    nth_error l k = Some a -> nth_error l (S k) = Some b -> R a b.
Proof.
  induction 1 as [|x l S IH H]; intros k a b Ha Hb.
  - now destruct k.
  - destruct k as [|k]; cbn in Ha, Hb.
    + injection Ha as <-. destruct l as [|y l]; [discriminate |].
      injection Hb as <-. now inversion H.
    + now apply (IH k).
Qed.

(** X1. Whatever the order of the samples, two consecutive periods of
    the result are more than 180 seconds apart: the later one opens more
    than 180 seconds after the earlier one closes. *)
Theorem X1_consecutive_periods_gap_apart (samples : list Timestamp) :
  exists periods,
    segmentActivity samples = Returns periods /\
    forall k p q,
      nth_error periods k = Some p -> nth_error periods (S k) = Some q ->
      180 < fst q - snd p.
Proof.
  destruct samples as [|x xs].
  - exists []. split; [reflexivity |]. intros k p q H. now destruct k.
  - rewrite segmentActivity_cons. eexists. split; [reflexivity |].
    intros k p q Hp Hq.
    exact (Sorted_nth_error_succ _ _ (segment_loop_gap_apart xs x x) k p q Hp Hq).
Qed.

Lemma X1_witness :
  exists periods,
    segmentActivity [0; 5; 400; 200; 900] = Returns periods /\
    forall k p q,
      nth_error periods k = Some p -> nth_error periods (S k) = Some q ->
      180 < fst q - snd p.
Proof. exact (X1_consecutive_periods_gap_apart [0; 5; 400; 200; 900]). Defined.

Lemma segment_loop_bounds_in (l : list Timestamp) :
  forall cs last,
    Forall (fun p => In (fst p) (cs :: l) /\ In (snd p) (last :: l))
           (segment_loop l cs last []).
Proof.
  induction l as [|t l IH]; intros cs last; cbn [segment_loop].
  - repeat constructor.
  - destruct (Qlt_bool 180 (t - last)).
    + rewrite segment_loop_acc. cbn [app]. constructor.
      * split; now left.
      * eapply Forall_impl; [| apply (IH t t)].
        intros p [A B]. split; now right.
    + eapply Forall_impl; [| apply (IH cs t)].
      intros p [A B]. split.
      * destruct A as [<- | A]; [now left | now right; right].
      * now right.
Qed.

(** X2. For a non-empty sample sequence the result is non-empty, its
    first period starts at the first sample, its last period ends at the
    last sample, and every period bound is one of the input samples. *)
Theorem X2_period_bounds_are_samples (x : Timestamp) (xs : list Timestamp) :
  exists periods,
    segmentActivity (x :: xs) = Returns periods /\
    (exists first_end rest, periods = (x, first_end) :: rest) /\
    (exists front last_start,
        periods = front ++ [(last_start, List.last xs x)]) /\
    Forall (fun p => In (fst p) (x :: xs) /\ In (snd p) (x :: xs)) periods.
Proof.
  rewrite segmentActivity_cons. eexists. split; [reflexivity |].
  destruct (segment_loop_app xs [] x x) as (P & s & e & E1 & E2 & _).
  destruct (segment_loop_head xs x) as (e' & P' & H).
  subst e. repeat split.
  - exists e', P'. apply H.
  - now exists P, s.
  - eapply Forall_impl; [| apply segment_loop_bounds_in].
    cbn beta. intros p [A B]. tauto.
Qed.

Lemma segment_loop_count (l : list Timestamp) :
  forall cs last,
    length (segment_loop l cs last []) = S (count_gaps last l).
Proof.
  induction l as [|t l IH]; intros cs last; cbn [segment_loop count_gaps].
  - reflexivity.
  - destruct (Qlt_bool 180 (t - last)).
    + rewrite segment_loop_acc, length_app, IH. reflexivity.
    + rewrite IH. reflexivity.
Qed.


(** ** Which events become rounds *)

Lemma py_max_cases (a b : Q) :
  (a < b /\ py_max a b = b) \/ (b <= a /\ py_max a b = a).
Proof.
  unfold py_max. destruct (Qlt_bool a b) eqn:E.
  - left. split; [now apply Qlt_bool_true | reflexivity].
  - right. split; [now apply Qlt_bool_false | reflexivity].
Qed.



(** X5. At most one Round per event: the output is no longer than the
    list of surviving events, which is no longer than the input. *)
Theorem X5_at_most_one_round_per_event (events : list Timestamp)
    (periods : list GameplayPeriod) :
  exists rounds,
    build_rounds_from_wins events periods = Returns rounds /\
    (length rounds <= length (valid_wins_of events periods))%nat /\
    (length (valid_wins_of events periods) <= length events)%nat.
Proof.
  eexists. split; [apply build_rounds_refines |].
  rewrite externalize_length. unfold accepted_candidates. split.
  - etransitivity; [apply filter_length_le |].
    unfold candidates. now rewrite length_map, length_seq.
  - rewrite valid_wins_of_filter. apply filter_length_le.
Qed.

Lemma Qfloor_add_Z (q : Q) (m : Z) :
  Qfloor (q + inject_Z m) = (Qfloor q + m)%Z.
Proof.
  pose proof (Qfloor_le q) as A1. pose proof (Qlt_floor q) as A2.
  pose proof (Qfloor_le (q + inject_Z m)) as B1.
  pose proof (Qlt_floor (q + inject_Z m)) as B2.
  rewrite inject_Z_plus in A2, B2. change (inject_Z 1) with 1 in A2, B2.
  assert (U : (Qfloor (q + inject_Z m) < Qfloor q + m + 1)%Z).
  { rewrite Zlt_Qlt, !inject_Z_plus. change (inject_Z 1) with 1. lra. }
  assert (L : (Qfloor q + m < Qfloor (q + inject_Z m) + 1)%Z).
  { rewrite Zlt_Qlt, !inject_Z_plus. change (inject_Z 1) with 1. lra. }
  lia.
Qed.

Lemma round_half_even_add_even (q : Q) (m : Z) :
  Z.even m = true ->
  round_half_even (q + inject_Z m) = (round_half_even q + m)%Z.
Proof.
  intros Ev. unfold round_half_even. rewrite Qfloor_add_Z.
  assert (C : Qcompare (q + inject_Z m - inject_Z (Qfloor q + m)) (1 # 2)
              = Qcompare (q - inject_Z (Qfloor q)) (1 # 2)).
  { apply Qcompare_comp; [| reflexivity]. rewrite inject_Z_plus. ring. }
  rewrite C, Z.even_add, Ev.
  destruct (Qcompare (q - inject_Z (Qfloor q)) (1 # 2)); try lia.
  destruct (Z.even (Qfloor q)); cbn; lia.
Qed.

Lemma py_round_2_add_whole (x : Q) (n : Z) :
  py_round (x + inject_Z n) 2 == py_round x 2 + inject_Z n.
Proof.
  rewrite !py_round_2.
  assert (E : (x + inject_Z n) * 100 == x * 100 + inject_Z (n * 100)).
  { rewrite inject_Z_mult. change (inject_Z 100) with 100. ring. }
  rewrite (round_half_even_comp _ _ E), round_half_even_add_even.
  - rewrite inject_Z_plus, inject_Z_mult. change (inject_Z 100) with 100.
    field.
  - rewrite Z.even_mul. now rewrite orb_true_r.
Qed.


(** ** What the frame scan hands to the builder *)

Lemma extract_shape (frame_at : Z -> FrameResult) (info : InfoResult)
    (events : list Timestamp) (periods : list GameplayPeriod) :
  extract_keyframes_and_detect_rounds frame_at info = (events, periods) ->
  (events = [] /\ periods = []) \/
  exists d,
    info = InfoOk d /\
    events =
      map inject_Z
        (filter (fun t => frame_round_win (frame_at t))
           (py_range (py_int match d with Some x => x | None => 3600 end) 5)) /\
    segmentActivity
      (map inject_Z
         (filter (fun t => frame_sampled (frame_at t))
            (py_range (py_int match d with Some x => x | None => 3600 end) 5)))
      = Returns periods.
Proof.
  unfold extract_keyframes_and_detect_rounds.
  destruct info as [|d]; [intros [= <- <-]; now left |].
  cbv zeta. set (ts := py_range _ 5).
  destruct (scan_loop frame_at ts [] []) as [[rw sc]|] eqn:Scan;
    [| intros [= <- <-]; now left].
  apply scan_loop_spec in Scan. cbn [app] in Scan.
  injection Scan as -> ->.
  destruct (segmentActivity _) as [gp | err] eqn:E;
    [| intros [= <- <-]; now left].
  intros [= <- <-]. right. exists d. auto.
Qed.

(** X7. Every win timestamp the scan returns lies within one of the
    gameplay periods it returns; so the builder's validity filter
    removes nothing from the scan's own output, and the scan never
    returns wins without periods. *)
Theorem X7_scanned_wins_lie_in_periods (frame_at : Z -> FrameResult)
    (info : InfoResult) (events : list Timestamp)
    (periods : list GameplayPeriod) :
  extract_keyframes_and_detect_rounds frame_at info = (events, periods) ->
  (forall w, In w events -> exists p, In p periods /\ within p w) /\
  valid_wins_of events periods = events /\
  (periods = [] -> events = []).
Proof.
  intros H. pose proof (extracted_wins_all_valid _ _ _ _ H) as V.
  assert (A : forall w, In w events -> exists p, In p periods /\ within p w).
  { intros w Hw. rewrite <- V, valid_wins_of_filter in Hw.
    apply filter_In in Hw. now apply within_some_period_true. }
  repeat split; trivial.
  intros ->. destruct events as [|w ws]; trivial.
  destruct (A w (or_introl eq_refl)) as (p & [] & _).
Qed.

Lemma X7_witness :
  (forall w, In w [5] -> exists p, In p [(0, 10)] /\ within p w) /\
  valid_wins_of [5] [(0, 10)] = [5] /\
  ([(0, 10)] = [] -> [5] = []).
Proof.
  apply (X7_scanned_wins_lie_in_periods
           (fun t => if (t =? 5)%Z then FrameText "ROUND WIN"
                     else FrameText "BUY PHASE")
           (InfoOk (Some 15)) [5] [(0, 10)]).
  reflexivity.
Defined.

Lemma py_range_members (stop t : Z) :
  In t (py_range stop 5) ->
  exists k, (t = 5 * k /\ 0 <= t < stop)%Z.
Proof.
  unfold py_range. intros H.
  apply in_map_iff in H. destruct H as (n & <- & Hn).
  apply in_seq in Hn. exists (Z.of_nat n). split; [lia |].
  pose proof (Z.mul_div_le (stop + 5 - 1) 5 eq_refl) as B.
  pose proof (Z.div_lt_upper_bound (stop + 5 - 1) 5 1 eq_refl) as U.
  lia.
Qed.

(** X8. The win timestamps the scan returns are strictly increasing
    multiples of the 5 second sampling interval within
    [0, int(duration)), where [duration] is 3600 when the video
    information carries none. *)
Theorem X8_scanned_wins_on_sampling_grid (frame_at : Z -> FrameResult)
    (d : option Q) (events : list Timestamp)
    (periods : list GameplayPeriod) :
  extract_keyframes_and_detect_rounds frame_at (InfoOk d)
    = (events, periods) ->
  StronglySorted Qlt events /\
  Forall (fun w =>
            exists k : Z,
              w = inject_Z (5 * k) /\
              (0 <= 5 * k < py_int match d with Some x => x | None => 3600 end)%Z)
         events.
Proof.
  intros H. apply extract_shape in H.
  destruct H as [[-> _] | (d' & [= <-] & -> & _)];
    [split; constructor |].
  split.
  - apply StronglySorted_map_rel with (R := Z.lt).
    + intros a b L. now rewrite <- Zlt_Qlt.
    + apply StronglySorted_filter_keep, py_range_increasing.
  - apply Forall_forall. intros w Hw.
    apply in_map_iff in Hw. destruct Hw as (t & <- & Ht).
    apply filter_In in Ht. destruct Ht as [Ht _].
    apply py_range_members in Ht. destruct Ht as (k & -> & B).
    exists k. auto.
Qed.

Lemma X8_witness :
  StronglySorted Qlt [0; 5; 10] /\
  Forall (fun w =>
            exists k : Z,
              w = inject_Z (5 * k) /\ (0 <= 5 * k < py_int (27 # 2))%Z)
         [0; 5; 10].
Proof.
  apply (X8_scanned_wins_on_sampling_grid
           (fun _ => FrameText "ROUND WIN") (Some (27 # 2))
           [0; 5; 10] [(0, 10)]).
  reflexivity.
Defined.

Lemma whole_inject (z : Z) : whole (inject_Z z).
Proof. now exists z. Qed.

Lemma whole_plus (a b : Q) : whole a -> whole b -> whole (a + b).
Proof.
  intros [x Hx] [y Hy]. exists (x + y)%Z.
  now rewrite inject_Z_plus, Hx, Hy.
Qed.

Lemma whole_minus (a b : Q) : whole a -> whole b -> whole (a - b).
Proof.
  intros [x Hx] [y Hy]. exists (x + - y)%Z.
  rewrite inject_Z_plus, inject_Z_opp, Hx, Hy. ring.
Qed.

Lemma whole_py_max (a b : Q) : whole a -> whole b -> whole (py_max a b).
Proof. intros Ha Hb. unfold py_max. now destruct (Qlt_bool a b). Qed.

Lemma whole_nth (l : list Timestamp) (i : nat) :
  Forall whole l -> whole (nth i l 0).
Proof.
  intros F. destruct (Nat.lt_ge_cases i (length l)) as [L | G].
  - rewrite Forall_forall in F. now apply F, nth_In.
  - rewrite nth_overflow by trivial. apply (whole_inject 0).
Qed.

Lemma py_round_2_whole (q : Q) : whole q -> py_round q 2 == q.
Proof.
  intros [z Hz].
  assert (E : q == 0 + inject_Z z) by (rewrite Hz; ring).
  rewrite (py_round_2_comp _ _ E), py_round_2_add_whole.
  change (py_round 0 2) with 0. now rewrite E.
Qed.

Lemma candidates_whole (fs : Timestamp) (vw : list Timestamp)
    (c : Timestamp * Timestamp) :
  whole fs -> Forall whole vw ->
  In c (candidates fs vw) -> whole (fst c) /\ whole (snd c).
Proof.
  intros Hfs Hvw Hin. unfold candidates in Hin.
  apply in_map_iff in Hin. destruct Hin as (i & <- & _).
  unfold candidate. cbn [fst snd]. split; [| now apply whole_nth].
  destruct i as [|j]; cbn [candidate_start].
  - apply whole_py_max; trivial.
    apply whole_minus; [now apply whole_nth | apply (whole_inject 90)].
  - apply whole_plus; [now apply whole_nth | apply (whole_inject 5)].
Qed.

Lemma whole_map_inject (l : list Z) : Forall whole (map inject_Z l).
Proof.
  apply Forall_forall. intros q Hq.
  apply in_map_iff in Hq. destruct Hq as (t & <- & _). apply whole_inject.
Qed.

Lemma segmentActivity_whole (samples : list Timestamp)
    (periods : list GameplayPeriod) :
  Forall whole samples ->
  segmentActivity samples = Returns periods ->
  whole (first_period_start periods).
Proof.
  intros F H. destruct samples as [|x xs].
  - injection H as <-. apply (whole_inject 0).
  - rewrite segmentActivity_cons in H. injection H as <-.
    destruct (segment_loop_head xs x) as (e & P & E). rewrite (E x).
    cbn [first_period_start]. now inversion F.
Qed.

(** X9. On the scan's own output every timestamp is a whole number of
    seconds, so the rounding changes nothing: each returned Round has
    whole [start] and [end] and its [duration] field equals
    [end - start] exactly. *)
Theorem X9_scan_rounds_are_exact (frame_at : Z -> FrameResult)
    (info : InfoResult) (events : list Timestamp)
    (periods : list GameplayPeriod) :
  extract_keyframes_and_detect_rounds frame_at info = (events, periods) ->
  exists rounds,
    build_rounds_from_wins events periods = Returns rounds /\
    Forall (fun r => whole (start r) /\ whole (end_ r) /\
                     duration r == end_ r - start r) rounds.
Proof.
  intros H. eexists. split; [apply build_rounds_refines |].
  assert (W : whole (first_period_start periods) /\ Forall whole events).
  { apply extract_shape in H.
    destruct H as [[-> ->] | (d & _ & -> & Seg)].
    - split; [apply (whole_inject 0) | constructor].
    - split; [| apply whole_map_inject].
      exact (segmentActivity_whole _ _ (whole_map_inject _) Seg). }
  destruct W as [Wfs Wev].
  apply externalize_Forall. intros k c Hin.
  unfold accepted_candidates in Hin.
  apply filter_In in Hin. destruct Hin as [Hin _].
  apply candidates_whole in Hin; trivial.
  - destruct Hin as [Ws We]. cbn [externalize_one start end_ duration].
    unfold candidate_duration.
    pose proof (py_round_2_whole _ Ws) as Rs.
    pose proof (py_round_2_whole _ We) as Re.
    split; [| split].
    + destruct Ws as [z Hz]. exists z. now rewrite Rs.
    + destruct We as [z Hz]. exists z. now rewrite Re.
    + now rewrite Rs, Re, (py_round_2_whole _ (whole_minus _ _ We Ws)).
  - rewrite valid_wins_of_filter. apply Forall_forall.
    intros w Hw. apply filter_In in Hw.
    rewrite Forall_forall in Wev. now apply Wev.
Qed.

Lemma X9_witness :
  exists rounds,
    build_rounds_from_wins [45; 100] [(0, 110)] = Returns rounds /\
    Forall (fun r => whole (start r) /\ whole (end_ r) /\
                     duration r == end_ r - start r) rounds.
Proof.
  apply (X9_scan_rounds_are_exact
           (fun t => if ((t =? 45) || (t =? 100))%Z
                     then FrameText "ROUND WIN" else FrameText "")
           (InfoOk (Some 115)) [45; 100] [(0, 110)]).
  reflexivity.
Defined.

(** ** Results of [process_video] and the cache *)

Ltac fails_with e :=
  left; exists e; split; [cbn [In]; auto 10 | reflexivity].

Section ProcessVideoFacts.

Variable extract_id : string -> option string.
Variable redis_get : string -> option ProcessingResult.
Variable video_info : string -> InfoResult.
Variable frame_at : string -> Z -> FrameResult.
Variable time_now : Q.
Variable video_url : string.

Lemma process_video_cases :
  (exists e,
      In e [err_invalid_url; err_no_gameplay; err_no_rounds; err_no_build] /\
      process_video extract_id redis_get video_info frame_at time_now
                    video_url = Returns (Failure e, None)) \/
  (exists video_id cached,
      extract_id video_url = Some video_id /\
      redis_get ("rounds:" ++ video_id)%string = Some cached /\
      process_video extract_id redis_get video_info frame_at time_now
                    video_url = Returns (cached, None)) \/
  (exists video_id rounds,
      extract_id video_url = Some video_id /\
      redis_get ("rounds:" ++ video_id)%string = None /\
      rounds <> [] /\
      (let '(events, periods) :=
         extract_keyframes_and_detect_rounds (frame_at video_url)
                                             (video_info video_url) in
       build_rounds_from_wins events periods = Returns rounds) /\
      process_video extract_id redis_get video_info frame_at time_now
                    video_url =
      Returns (Success video_id video_url rounds
                       (Z.of_nat (length rounds)) time_now,
               Some (mkCacheWrite ("rounds:" ++ video_id)%string 604800
                       (Success video_id video_url rounds
                                (Z.of_nat (length rounds)) time_now)))).
Proof.
  unfold process_video.
  destruct (extract_id video_url) as [[|a id]|];
    [fails_with err_invalid_url | |
     fails_with err_invalid_url].
  destruct (redis_get _) as [cached|] eqn:Hit;
    [right; left; exists (String a id), cached; auto |].
  destruct (extract_keyframes_and_detect_rounds _ _) as [events periods].
  destruct periods as [|p periods];
    [fails_with err_no_gameplay |].
  destruct events as [|w events];
    [fails_with err_no_rounds |].
  rewrite build_rounds_refines. cbn [bind].
  destruct (externalize 1 _) as [|r rounds] eqn:E;
    [fails_with err_no_build |].
  right; right. exists (String a id), (r :: rounds).
  repeat split; trivial. discriminate.
Qed.

End ProcessVideoFacts.

(** X10. [process_video] never raises, and its outcome is one of three
    kinds: a failure carrying one of the four reason strings, which is
    not cached; the cached result, returned as stored and not written
    again; or a fresh success, whose rounds are the non-empty output of
    the builder, whose [total_rounds] is their number, and which is
    written to the cache under ["rounds:" + video_id] for 604800 seconds
    (7 days). *)
Theorem X10_process_video_outcomes
    (extract_id : string -> option string)
    (redis_get : string -> option ProcessingResult)
    (video_info : string -> InfoResult)
    (frame_at : string -> Z -> FrameResult)
    (time_now : Q) (video_url : string) :
  exists result write,
    process_video extract_id redis_get video_info frame_at time_now video_url
      = Returns (result, write) /\
    ((exists e,
         In e [err_invalid_url; err_no_gameplay; err_no_rounds; err_no_build]
         /\ result = Failure e /\ write = None) \/
     (exists video_id,
         extract_id video_url = Some video_id /\
         redis_get ("rounds:" ++ video_id)%string = Some result /\
         write = None) \/
     (exists video_id rounds,
         extract_id video_url = Some video_id /\
         rounds <> [] /\
         build_rounds_from_wins
           (fst (extract_keyframes_and_detect_rounds
                   (frame_at video_url) (video_info video_url)))
           (snd (extract_keyframes_and_detect_rounds
                   (frame_at video_url) (video_info video_url)))
           = Returns rounds /\
         result = Success video_id video_url rounds
                          (Z.of_nat (length rounds)) time_now /\
         write = Some (mkCacheWrite ("rounds:" ++ video_id)%string 604800
                                    result))).
Proof.
  destruct (process_video_cases extract_id redis_get video_info frame_at
              time_now video_url)
    as [(e & He & H) | [(id & cached & Hid & Hit & H)
                       | (id & rounds & Hid & Hmiss & Hne & Hb & H)]];
    rewrite H; eexists; eexists; (split; [reflexivity |]).
  - left. exists e. auto.
  - right; left. exists id. auto.
  - right; right. exists id, rounds.
    destruct (extract_keyframes_and_detect_rounds _ _) as [events periods].
    cbn [fst snd]. auto.
Qed.

(** X11. A run that wrote its result to the cache is repeatable from
    the cache: a later run for the same URL that reads the cache as that
    write left it returns the same result and writes nothing, whatever
    the video information, the frames and the clock are by then. *)
Theorem X11_second_run_served_from_cache
    (extract_id : string -> option string)
    (redis_get : string -> option ProcessingResult)
    (video_info : string -> InfoResult)
    (frame_at : string -> Z -> FrameResult)
    (time_now : Q) (video_url : string)
    (result : ProcessingResult) (write : CacheWrite) :
  process_video extract_id redis_get video_info frame_at time_now video_url
    = Returns (result, Some write) ->
  forall video_info' frame_at' time_now',
    process_video extract_id (cache_after redis_get (Some write))
                  video_info' frame_at' time_now' video_url
      = Returns (result, None).
Proof.
  intros H video_info' frame_at' time_now'.
  destruct (process_video_cases extract_id redis_get video_info frame_at
              time_now video_url)
    as [(e & _ & H') | [(id & cached & _ & _ & H')
                       | (id & rounds & Hid & _ & _ & _ & H')]];
    rewrite H' in H; try discriminate.
  injection H as <- <-.
  unfold process_video. rewrite Hid.
  destruct id as [|a id].
  - revert H'. unfold process_video. rewrite Hid. discriminate.
  - cbn [cache_after cw_key cw_value]. now rewrite String.eqb_refl.
Qed.

Lemma X11_witness :
  process_video (fun _ => Some "dQw4w9WgXcQ"%string)
    (cache_after (fun _ => None)
       (Some (mkCacheWrite "rounds:dQw4w9WgXcQ" 604800
                (Success "dQw4w9WgXcQ" "https://youtu.be/dQw4w9WgXcQ"
                         [mkRound 1 0 45 45] 1 0))))
    (fun _ => InfoFailed) (fun _ _ => NoFrame) 1
    "https://youtu.be/dQw4w9WgXcQ"
  = Returns (Success "dQw4w9WgXcQ" "https://youtu.be/dQw4w9WgXcQ"
                     [mkRound 1 0 45 45] 1 0, None).
Proof.
  apply (X11_second_run_served_from_cache
           (fun _ => Some "dQw4w9WgXcQ"%string) (fun _ => None)
           (fun _ => InfoOk (Some 50))
           (fun _ t => if (t =? 45)%Z then FrameText "ROUND WIN"
                       else FrameText "")
           0 "https://youtu.be/dQw4w9WgXcQ").
  reflexivity.
Defined.

(** ** The video identifier *)

Lemma split_go_length (sep : string) (s : string) :
  forall skip cur, (1 <= length (split_go sep skip cur s))%nat.
Proof.
  induction s as [|c s IH]; intros skip cur; cbn [split_go].
  - cbn. lia.
  - destruct skip as [|k]; [| apply IH].
    destruct (String.prefix sep (String c s)); [cbn; lia | apply IH].
Qed.

Lemma py_in_cons (sep : string) (c : ascii) (s : string) :
  py_in sep (String c s) =
  if String.prefix sep (String c s) then true else py_in sep s.
Proof. reflexivity. Qed.

Lemma split_go_two_pieces (a : ascii) (sep' : string) (s : string) :
  forall cur,
    py_in (String a sep') s = true ->
    (2 <= length (split_go (String a sep') 0 cur s))%nat.
Proof.
  induction s as [|c s IH]; intros cur Hin.
  - discriminate Hin.
  - rewrite py_in_cons in Hin. cbn [split_go].
    destruct (String.prefix (String a sep') (String c s)) eqn:P.
    + cbn [length].
      pose proof (split_go_length (String a sep') s
                    (String.length (String a sep') - 1) EmptyString).
      lia.
    + now apply IH.
Qed.

Lemma py_index_in_range {A : Type} (l : list A) (n : nat) :
  (n < length l)%nat -> exists a, py_index l (Z.of_nat n) = Returns a.
Proof.
  intros L. destruct (nth_error l n) as [a|] eqn:E.
  - exists a. now apply py_index_nth.
  - apply nth_error_None in E. lia.
Qed.

(** X12. [extract_video_id] raises no [IndexError]: the [in] tests that
    guard the two [split] calls make both list indexings safe, and the
    ['v'] lookup is safe as long as the query parser maps a key to a
    non-empty list.  It returns [None] whenever the host contains
    neither "youtu.be" nor "youtube.com". *)
Theorem X12_extract_video_id_returns
    (urlparse : string -> ParseResult)
    (parse_qs : string -> list (string * list string)) (url : string) :
  (forall values,
      dict_get (parse_qs (query (urlparse url))) "v" = Some values ->
      values <> []) ->
  (exists r, extract_video_id urlparse parse_qs url = Returns r) /\
  (py_in "youtu.be" (netloc (urlparse url)) = false ->
   py_in "youtube.com" (netloc (urlparse url)) = false ->
   extract_video_id urlparse parse_qs url = Returns None).
Proof.
  intros Hqs. unfold extract_video_id. cbv zeta. split.
  - destruct (py_in "youtu.be" _); [eexists; reflexivity |].
    destruct (py_in "youtube.com" _); [| eexists; reflexivity].
    destruct (py_in "/watch" _).
    + destruct (dict_get _ "v") as [[|v values]|] eqn:V;
        [now destruct (Hqs [] eq_refl) | | eexists; reflexivity].
      rewrite py_index_head. eexists; reflexivity.
    + destruct (py_in "/embed/" (path (urlparse url))) eqn:E;
        [| eexists; reflexivity].
      destruct (py_index_in_range (py_split "/embed/" (path (urlparse url))) 1)
        as [after Ha].
      { now apply split_go_two_pieces. }
      change (Z.of_nat 1) with 1%Z in Ha. rewrite Ha. cbn [bind].
      destruct (py_index_in_range (py_split "?" after) 0) as [id Hi];
        [apply split_go_length |].
      change (Z.of_nat 0) with 0%Z in Hi. rewrite Hi. eexists; reflexivity.
  - now intros -> ->.
Qed.

Lemma X12_witness :
  exists r,
    extract_video_id
      (fun _ => mkParseResult "www.youtube.com" "/embed/dQw4w9WgXcQ" "")
      (fun _ => []) "https://www.youtube.com/embed/dQw4w9WgXcQ" = Returns r.
Proof.
  apply (X12_extract_video_id_returns
           (fun _ => mkParseResult "www.youtube.com" "/embed/dQw4w9WgXcQ" "")
           (fun _ => []) "https://www.youtube.com/embed/dQw4w9WgXcQ").
  intros values H. discriminate H.
Defined.

Lemma prefix_empty (s : string) : String.prefix EmptyString s = true.
Proof. now destruct s. Qed.

Lemma append_empty_r (s : string) : (s ++ EmptyString)%string = s.
Proof. induction s as [|c s IH]; cbn; [| rewrite IH]; reflexivity. Qed.

Lemma append_snoc (s t : string) (c : ascii) :
  ((s ++ String c EmptyString) ++ t)%string = (s ++ String c t)%string.
Proof. induction s as [|a s IH]; cbn; [| rewrite IH]; reflexivity. Qed.

Lemma split_go_absent (sep : string) (s : string) :
  forall cur,
    py_in sep s = false -> split_go sep 0 cur s = [(cur ++ s)%string].
Proof.
  induction s as [|c s IH]; intros cur Hin; cbn [split_go].
  - now rewrite append_empty_r.
  - rewrite py_in_cons in Hin.
    destruct (String.prefix sep (String c s)); [discriminate |].
    now rewrite IH, append_snoc.
Qed.



Lemma py_lstrip_spec (c : ascii) (s : string) :
  exists n,
    s = (string_of_list_ascii (repeat c n) ++ py_lstrip c s)%string /\
    String.prefix (String c EmptyString) (py_lstrip c s) = false.
Proof.
  induction s as [|a s (n & E & P)]; cbn [py_lstrip].
  - exists O. split; reflexivity.
  - destruct (Ascii.eqb_spec a c) as [-> | N].
    + exists (S n). split; trivial. cbn. now rewrite <- E.
    + exists O. split; [reflexivity |]. cbn.
      destruct (ascii_dec c a) as [-> | _]; [now destruct N | reflexivity].
Qed.

Lemma py_in_char_cons (q c : ascii) (s : string) :
  py_in (String q EmptyString) (String c s) =
  if ascii_dec q c then true else py_in (String q EmptyString) s.
Proof.
  rewrite py_in_cons. cbn [String.prefix].
  destruct (ascii_dec q c); [now rewrite prefix_empty | reflexivity].
Qed.

Lemma py_in_char_snoc (q c : ascii) (cur : string) :
  py_in (String q EmptyString) cur = false -> q <> c ->
  py_in (String q EmptyString) (cur ++ String c EmptyString) = false.
Proof.
  intros H N. induction cur as [|a cur IH].
  - cbn [append]. rewrite py_in_char_cons.
    destruct (ascii_dec q c); [contradiction | reflexivity].
  - cbn [append]. rewrite py_in_char_cons in *.
    destruct (ascii_dec q a); [discriminate | now apply IH].
Qed.

Lemma split_char_first (q : ascii) (s : string) :
  forall cur,
    py_in (String q EmptyString) cur = false ->
    exists first rest,
      split_go (String q EmptyString) 0 cur s = first :: rest /\
      py_in (String q EmptyString) first = false.
Proof.
  induction s as [|c s IH]; intros cur H; cbn [split_go].
  - now exists cur, [].
  - cbn [String.prefix]. destruct (ascii_dec q c) as [E | N].
    + rewrite prefix_empty. now eexists; eexists.
    + apply IH. now apply py_in_char_snoc.
Qed.

(** X14. Shape of the identifier.  For a "youtu.be" host the result is
    the path without its leading slashes: never [None], never starting
    with "/", and empty when the path holds nothing else.  For the embed
    form the result contains no "?". *)
Theorem X14_extract_video_id_shape
    (urlparse : string -> ParseResult)
    (parse_qs : string -> list (string * list string)) (url : string) :
  (py_in "youtu.be" (netloc (urlparse url)) = true ->
   exists id n,
     extract_video_id urlparse parse_qs url = Returns (Some id) /\
     path (urlparse url) =
       (string_of_list_ascii (repeat "/"%char n) ++ id)%string /\
     String.prefix "/" id = false) /\
  (py_in "youtu.be" (netloc (urlparse url)) = false ->
   py_in "youtube.com" (netloc (urlparse url)) = true ->
   py_in "/watch" (path (urlparse url)) = false ->
   py_in "/embed/" (path (urlparse url)) = true ->
   exists id,
     extract_video_id urlparse parse_qs url = Returns (Some id) /\
     py_in "?" id = false).
Proof.
  unfold extract_video_id. cbv zeta. split.
  - intros ->.
    destruct (py_lstrip_spec "/" (path (urlparse url))) as (n & E & P).
    now exists (py_lstrip "/" (path (urlparse url))), n.
  - intros -> -> -> E.
    destruct (py_index_in_range (py_split "/embed/" (path (urlparse url))) 1)
      as [after Ha]; [now apply split_go_two_pieces |].
    change (Z.of_nat 1) with 1%Z in Ha. rewrite E, Ha. cbn [bind].
    destruct (split_char_first "?" after EmptyString eq_refl)
      as (first & rest & S & F).
    unfold py_split. rewrite S, py_index_head. cbn [bind].
    now exists first.
Qed.

Lemma X14_witness :
  (exists id n,
      extract_video_id (fun _ => mkParseResult "youtu.be" "//" "")
                       (fun _ => []) "https://youtu.be//"
        = Returns (Some id) /\
      path (mkParseResult "youtu.be" "//" "") =
        (string_of_list_ascii (repeat "/"%char n) ++ id)%string /\
      String.prefix "/" id = false) /\
  (exists id,
      extract_video_id
        (fun _ => mkParseResult "www.youtube.com" "/embed/abc?x=1" "")
        (fun _ => []) "https://www.youtube.com/embed/abc%3Fx=1"
        = Returns (Some id) /\
      py_in "?" id = false).
Proof.
  split.
  - apply (proj1 (X14_extract_video_id_shape
                    (fun _ => mkParseResult "youtu.be" "//" "")
                    (fun _ => []) "https://youtu.be//")).
    reflexivity.
  - apply (proj2 (X14_extract_video_id_shape
                    (fun _ => mkParseResult "www.youtube.com"
                                            "/embed/abc?x=1" "")
                    (fun _ => []) "https://www.youtube.com/embed/abc%3Fx=1"));
      reflexivity.
Defined.

(** The empty identifier of a bare "youtu.be" link is what
    [process_video] then rejects. *)
Remark bare_short_link_is_invalid :
  extract_video_id (fun _ => mkParseResult "youtu.be" "/" "")
                   (fun _ => []) "https://youtu.be/"
    = Returns (Some EmptyString) /\
  process_video (fun _ => Some EmptyString) (fun _ => None)
                (fun _ => InfoOk None) (fun _ _ => FrameText "") 0
                "https://youtu.be/"
    = Returns (Failure err_invalid_url, None).
Proof. split; reflexivity. Qed.

(** ** What a job leaves in the store *)

Lemma append_cancel_l (a b c : string) :
  (a ++ b)%string = (a ++ c)%string -> b = c.
Proof.
  induction a as [|x a IH]; cbn [append]; intros H; [exact H |].
  injection H as H. now apply IH.
Qed.

Lemma job_key_field (job_id : option string) (f g : string) :
  f <> g -> String.eqb (job_key job_id f) (job_key job_id g) = false.
Proof.
  intros N. apply String.eqb_neq. intros E. apply N.
  unfold job_key in E.
  apply append_cancel_l, append_cancel_l in E.
  now injection E.
Qed.



Lemma list_ascii_of_append (a b : string) :
  list_ascii_of_string (a ++ b) =
  (list_ascii_of_string a ++ list_ascii_of_string b)%list.
Proof. induction a as [|x a IH]; cbn; [| rewrite IH]; reflexivity. Qed.

Lemma job_key_chars (job_id : option string) (f : string) :
  list_ascii_of_string (job_key job_id f) =
  (list_ascii_of_string "job:" ++ list_ascii_of_string (py_format job_id)
     ++ list_ascii_of_string (String ":" f))%list.
Proof.
  unfold job_key. now rewrite !list_ascii_of_append.
Qed.

(** X16. Jobs do not share keys: when two job ids print differently,
    no status, result or error key of the one equals any such key of the
    other. *)
Theorem X16_jobs_have_disjoint_keys (id1 id2 : option string)
    (f g : string) :
  py_format id1 <> py_format id2 ->
  In f ["status"; "result"; "error"]%string ->
  In g ["status"; "result"; "error"]%string ->
  job_key id1 f <> job_key id2 g.
Proof.
  intros N Hf Hg E.
  apply (f_equal list_ascii_of_string) in E.
  rewrite !job_key_chars in E. apply app_inv_head in E.
  assert (C : list_ascii_of_string (py_format id1) =
              list_ascii_of_string (py_format id2)).
  { cbn [In] in Hf, Hg.
    destruct Hf as [<- | [<- | [<- | []]]];
      destruct Hg as [<- | [<- | [<- | []]]];
      cbn [list_ascii_of_string] in E;
      repeat match type of E with
             | (?x ++ ?l)%list = (?y ++ ?l)%list =>
                 apply app_inv_tail in E
             | (?x ++ ?a :: ?l)%list = (?y ++ ?b :: ?m)%list =>
                 first
                   [ change (x ++ a :: l)%list
                       with (x ++ removelast (a :: l) ++ [last (a :: l) a])%list
                       in E;
                     change (y ++ b :: m)%list
                       with (y ++ removelast (b :: m) ++ [last (b :: m) b])%list
                       in E;
                     rewrite !app_assoc in E;
                     apply app_inj_tail in E; destruct E as [_ E];
                     discriminate E ]
             end; trivial. }
  apply N.
  rewrite <- (string_of_list_ascii_of_string (py_format id1)),
          <- (string_of_list_ascii_of_string (py_format id2)).
  now rewrite C.
Qed.

Lemma X16_witness :
  job_key (Some "41"%string) "status" <> job_key (Some "42"%string) "status".
Proof.
  apply (X16_jobs_have_disjoint_keys (Some "41"%string) (Some "42"%string)
           "status" "status").
  - discriminate.
  - cbn. auto.
  - cbn. auto.
Defined.
